(** * The robot dashboard client (frontend/src/App.jsx) and the pick
      coordinator it talks to

    The dashboard is a React component: a handful of state cells, a
    WebSocket [onmessage] handler that overwrites them from each pushed
    snapshot, and three asynchronous handlers ([handlePick], [createOrder],
    [deleteOrder]) that talk to the REST surface through axios.

    Handlers are embedded as command trees ([cmd]): a setter call, an awaited
    request with its [try]/[catch] continuations, a [console.error].  A
    handler is a function of the render it was created in (the state values
    its closure captured); [run] interprets the tree against the state cells
    and a server. *)

From Stdlib Require Import Ascii String QArith Qround Qpower Qcanon Lqa.
From stdpp Require Import base strings gmap list pretty.

Open Scope string_scope.
Open Scope Z_scope.

Set Warnings "-register-all".

(** ** JavaScript values, as [JSON.parse] produces them *)

Inductive value : Type :=
  | VUndefined
  | VNull
  | VBool (b : bool)
  | VNum (q : Q)
  | VStr (s : string)
  | VArr (elems : list value)
  | VObj (props : gmap string value).

(** [ToBoolean].  Every object, arrays and the empty array included, is
    truthy; a number is falsy when it is zero ([JSON.parse] yields no NaN). *)
Definition truthy (v : value) : bool :=
  match v with
  | VUndefined | VNull => false
  | VBool b => b
  | VNum q => negb (Qeq_bool q 0)
  | VStr s => negb (String.eqb s "")
  | VArr _ | VObj _ => true
  end.

(** [a || b] *)
Definition js_or (a b : value) : value := if truthy a then a else b.

(** [v === 'lit']: strict equality against a string literal holds for the
    string itself and for nothing else. *)
Definition strict_eq_str (v : value) (lit : string) : bool :=
  match v with
  | VStr s => String.eqb s lit
  | _ => false
  end.

(** [v.key] for the keys the dashboard reads, none of which is a prototype
    property: [None] is the TypeError of reading a property of [null] or
    [undefined]; a missing property reads as [undefined]. *)
Definition get_prop (v : value) (key : string) : option value :=
  match v with
  | VUndefined | VNull => None
  | VObj props => Some (default VUndefined (props !! key))
  | _ => Some VUndefined
  end.

Definition is_array (v : value) : bool :=
  match v with VArr _ => true | _ => false end.

(** ** The component's state cells

    One field per [useState] cell of [App] that a handler reads or writes
    (the [ws] cell only keeps the socket handle).  [orders] holds whatever
    the last snapshot or [GET /api/orders] delivered; [newOrder] is the
    create-order form object; [selectedOrderId] is [null] or the id string of
    the order card that was clicked. *)

Record AppState : Type := mkApp {
  robotStatus : value;
  currentModel : value;
  orders : value;
  showCreateOrder : bool;
  newOrder : gmap string value;
  selectedOrderId : option string;
  isPickingInProgress : bool
}.

(** [{ white_boxes: 1, yellow_boxes: 1, black_boxes: 0 }] *)
Definition default_newOrder : gmap string value :=
  <["black_boxes" := VNum 0]>
    (<["yellow_boxes" := VNum 1]> (<["white_boxes" := VNum 1]> ∅)).

(** The state of the first render. *)
Definition initial_state : AppState :=
  {| robotStatus := VStr "idle";
     currentModel := VNull;
     orders := VArr [];
     showCreateOrder := false;
     newOrder := default_newOrder;
     selectedOrderId := None;
     isPickingInProgress := false |}.

(** A call of one of the state setters. *)
Inductive setter : Type :=
  | setRobotStatus (v : value)
  | setCurrentModel (v : value)
  | setOrders (v : value)
  | setShowCreateOrder (b : bool)
  | setNewOrder (o : gmap string value)
  | setSelectedOrderId (id : option string)
  | setIsPickingInProgress (b : bool).

Definition apply_setter (u : setter) (st : AppState) : AppState :=
  match u with
  | setRobotStatus v =>
      mkApp v (currentModel st) (orders st) (showCreateOrder st)
            (newOrder st) (selectedOrderId st) (isPickingInProgress st)
  | setCurrentModel v =>
      mkApp (robotStatus st) v (orders st) (showCreateOrder st)
            (newOrder st) (selectedOrderId st) (isPickingInProgress st)
  | setOrders v =>
      mkApp (robotStatus st) (currentModel st) v (showCreateOrder st)
            (newOrder st) (selectedOrderId st) (isPickingInProgress st)
  | setShowCreateOrder b =>
      mkApp (robotStatus st) (currentModel st) (orders st) b
            (newOrder st) (selectedOrderId st) (isPickingInProgress st)
  | setNewOrder o =>
      mkApp (robotStatus st) (currentModel st) (orders st) (showCreateOrder st)
            o (selectedOrderId st) (isPickingInProgress st)
  | setSelectedOrderId id =>
      mkApp (robotStatus st) (currentModel st) (orders st) (showCreateOrder st)
            (newOrder st) id (isPickingInProgress st)
  | setIsPickingInProgress b =>
      mkApp (robotStatus st) (currentModel st) (orders st) (showCreateOrder st)
            (newOrder st) (selectedOrderId st) b
  end.

(** ** Requests, responses and handler bodies *)

Inductive request : Type :=
  | HttpGet (url : string)
  | HttpPost (url : string) (body : value)
  | HttpDelete (url : string).

(** How an awaited axios promise settles: with the response's [data], or by
    rejecting (network error, non-2xx status). *)
Inductive response : Type :=
  | Fulfilled (data : value)
  | Rejected.

(** The body of a handler.  [Await r ok err] is
    [try { const response = await axios...; ok(response.data) } catch { err }]. *)
Inductive cmd : Type :=
  | Done
  | Throw
  | Call (u : setter) (k : cmd)
  | Await (r : request) (ok : value → cmd) (err : cmd)
  | ConsoleError (msg : string) (k : cmd).

(** What a handler does to the outside world. *)
Inductive event : Type :=
  | Sent (r : request)
  | Logged (msg : string)
  | Uncaught.

(** Run a handler body to completion: [server] settles each request, setter
    calls act on the state cells, the events are collected in order. *)
Fixpoint run (server : request → response) (c : cmd) (st : AppState)
  : AppState * list event :=
  match c with
  | Done => (st, [])
  | Throw => (st, [Uncaught])
  | Call u k => run server k (apply_setter u st)
  | Await r ok err =>
      let rest :=
        match server r with
        | Fulfilled data => run server (ok data) st
        | Rejected => run server err st
        end in
      (rest.1, Sent r :: rest.2)
  | ConsoleError msg k =>
      let rest := run server k st in
      (rest.1, Logged msg :: rest.2)
  end.

Definition API_URL : string := "http://localhost:8000".

(** ** The handlers of [App] *)

(** [websocket.onmessage], applied to [JSON.parse(event.data)]. *)
Definition onmessage (data : value) : cmd :=
  match get_prop data "robot_status",
        get_prop data "current_model",
        get_prop data "orders" with
  | Some robot_status, Some current_model, Some data_orders =>
      Call (setRobotStatus robot_status)
        (Call (setCurrentModel current_model)
          (Call (setOrders (js_or data_orders (VArr [])))
            (Call (setIsPickingInProgress
                     (strict_eq_str robot_status "picking"
                      || strict_eq_str robot_status "loading_model"))
               Done)))
  | _, _, _ => Throw
  end.

Definition fetchOrders : cmd :=
  Await (HttpGet (API_URL ++ "/api/orders"))
    (fun data => Call (setOrders data) Done)
    (ConsoleError "Error fetching orders:" Done).

(** [selectedOrderId] as a JavaScript value. *)
Definition id_value (id : option string) : value :=
  match id with
  | Some s => VStr s
  | None => VNull
  end.

(** The object literal [{ color, order_id: selectedOrderId }]. *)
Definition pick_body (color : string) (id : option string) : gmap string value :=
  <["order_id" := id_value id]> (<["color" := VStr color]> ∅).

(** [handlePick], created in a render whose state is [st]. *)
Definition handlePick (st : AppState) (color : string) : cmd :=
  if isPickingInProgress st then Done
  else
    Await (HttpPost (API_URL ++ "/api/pick")
                    (VObj (pick_body color (selectedOrderId st))))
      (fun _ => Done)
      (ConsoleError "Error picking box:" Done).

Definition createOrder (st : AppState) : cmd :=
  Await (HttpPost (API_URL ++ "/api/orders") (VObj (newOrder st)))
    (fun _ =>
       Call (setShowCreateOrder false)
         (Call (setNewOrder default_newOrder) fetchOrders))
    (ConsoleError "Error creating order:" Done).

(** [selectedOrderId === orderId] *)
Definition is_selected (st : AppState) (orderId : string) : bool :=
  match selectedOrderId st with
  | Some s => String.eqb s orderId
  | None => false
  end.

Definition deleteOrder (st : AppState) (orderId : string) : cmd :=
  Await (HttpDelete (API_URL ++ "/api/orders/" ++ orderId))
    (fun _ =>
       if is_selected st orderId
       then Call (setSelectedOrderId None) fetchOrders
       else fetchOrders)
    (ConsoleError "Error deleting order:" Done).

(** ** The create-order form: [parseInt(e.target.value) || 0] *)

(** The white space [parseInt] skips, among the code units below 256: TAB,
    LF, VT, FF, CR, SP and NBSP. *)
Definition is_white_space (a : ascii) : bool :=
  let n := Z.of_nat (nat_of_ascii a) in
  ((9 <=? n) && (n <=? 13)) || (n =? 32) || (n =? 160).

Fixpoint trim_start (s : string) : string :=
  match s with
  | String a rest => if is_white_space a then trim_start rest else s
  | EmptyString => s
  end.

(** The value of a character as a digit of the given radix, if it is one. *)
Definition digit_value (radix : Z) (a : ascii) : option Z :=
  let n := Z.of_nat (nat_of_ascii a) in
  let d :=
    if (48 <=? n) && (n <=? 57) then Some (n - 48)
    else if (97 <=? n) && (n <=? 122) then Some (n - 87)
    else if (65 <=? n) && (n <=? 90) then Some (n - 55)
    else None in
  match d with
  | Some k => if k <? radix then Some k else None
  | None => None
  end.

(** The longest prefix of radix digits, read as an integer; [acc] is [None]
    until a digit has been read. *)
Fixpoint parse_digits (radix : Z) (s : string) (acc : option Z) : option Z :=
  match s with
  | String a rest =>
      match digit_value radix a with
      | Some d => parse_digits radix rest (Some (radix * default 0 acc + d))
      | None => acc
      end
  | EmptyString => acc
  end.

(** A leading sign and the rest of the string. *)
Definition take_sign (s : string) : Z * string :=
  match s with
  | String "-" rest => (-1, rest)
  | String "+" rest => (1, rest)
  | _ => (1, s)
  end.

(** The radix a [0x] or [0X] prefix selects, and the rest of the string. *)
Definition take_radix (s : string) : Z * string :=
  match s with
  | String "0" (String "x" rest) => (16, rest)
  | String "0" (String "X" rest) => (16, rest)
  | _ => (10, s)
  end.

(** [parseInt(s)] with no radix argument: skip white space, take a sign,
    strip a hexadecimal prefix, read the digits.  [None] is NaN.  The integer
    is exact here; JavaScript rounds it to a double, which is the integer
    itself up to a magnitude of 2^53. *)
Definition parseInt (s : string) : option Z :=
  let '(sign, s2) := take_sign (trim_start s) in
  let '(radix, s3) := take_radix s2 in
  match parse_digits radix s3 None with
  | Some n => Some (sign * n)
  | None => None
  end.

(** [parseInt(s) || 0]: NaN and zero are falsy. *)
Definition parseInt_or_0 (s : string) : Z :=
  match parseInt s with
  | Some n => if n =? 0 then 0 else n
  | None => 0
  end.

(** The [onChange] handler of a count field:
    [setNewOrder({ ...newOrder, field: parseInt(e.target.value) || 0 })]. *)
Definition onChange (field : string) (st : AppState) (target_value : string) : cmd :=
  Call (setNewOrder
          (<[field := VNum (inject_Z (parseInt_or_0 target_value))]> (newOrder st)))
       Done.

Definition onChange_white_boxes := onChange "white_boxes".
Definition onChange_yellow_boxes := onChange "yellow_boxes".
Definition onChange_black_boxes := onChange "black_boxes".

(** ** Status rendering *)

Inductive lucide : Type := CheckCircle | Loader2 | Activity | AlertCircle.

(** An icon element, [<Icon className=... />]. *)
Record element : Type := mkElement {
  icon : lucide;
  className : string
}.

(** A [switch] compares with [===]. *)
Definition getStatusColor (status : value) : string :=
  if strict_eq_str status "idle" then "text-green-400"
  else if strict_eq_str status "loading_model" then "text-yellow-400"
  else if strict_eq_str status "picking" then "text-blue-400"
  else if strict_eq_str status "error" then "text-red-400"
  else "text-gray-400".

Definition getStatusIcon (status : value) : element :=
  if strict_eq_str status "idle" then mkElement CheckCircle "w-5 h-5"
  else if strict_eq_str status "loading_model" then mkElement Loader2 "w-5 h-5 animate-spin"
  else if strict_eq_str status "picking" then mkElement Activity "w-5 h-5 animate-pulse"
  else if strict_eq_str status "error" then mkElement AlertCircle "w-5 h-5"
  else mkElement Activity "w-5 h-5".

(** ** An order card and its progress bar *)

(** An element of the order list as the card reads it.  A count is a JSON
    integer, or [None] when the field is absent or [null]. *)
Record Order : Type := mkOrder {
  id : string;
  status : string;
  white_boxes : option Z;
  yellow_boxes : option Z;
  black_boxes : option Z;
  completed_white : option Z;
  completed_yellow : option Z;
  completed_black : option Z
}.

(** A count as the integer the JSON text gives, zero when the field is
    absent, [null] or zero ([count || 0]). *)
Definition or_0 (count : option Z) : Z :=
  match count with
  | Some n => if n =? 0 then 0 else n
  | None => 0
  end.

Inductive box_color : Type := white | yellow | black.

Definition requested (o : Order) (c : box_color) : Z :=
  match c with
  | white => or_0 (white_boxes o)
  | yellow => or_0 (yellow_boxes o)
  | black => or_0 (black_boxes o)
  end.

Definition completed (o : Order) (c : box_color) : Z :=
  match c with
  | white => or_0 (completed_white o)
  | yellow => or_0 (completed_yellow o)
  | black => or_0 (completed_black o)
  end.

(** *** JavaScript numbers

    A number is an IEEE 754 double: a rational with 53 significant bits, an
    infinity, or NaN.  The two zeros are one [Finite 0] here; the card never
    divides by a negative zero, since [|| 0] turns it into the positive one
    and sums of non-negative terms cannot produce it. *)

Inductive number : Type :=
  | Finite (q : Q)
  | NaN
  | Infinity (negative : bool).

(** [2^k] for any integer [k]. *)
Definition pow2 (k : Z) : Q := (2 ^ k)%Q.

(** Round to the nearest integer, a tie to the even one. *)
Definition round_half_even (x : Q) : Z :=
  let f := Qfloor x in
  match (x - inject_Z f ?= 1 # 2)%Q with
  | Lt => f
  | Gt => f + 1
  | Eq => if Z.even f then f else f + 1
  end.

(** The binary exponent of a positive rational: [2^e <= x < 2^(e+1)]. *)
Definition ilog2 (x : Q) : Z :=
  let e0 := Z.log2 (Qnum x) - Z.log2 (Z.pos (Qden x)) in
  if Qle_bool (pow2 e0) x then e0 else e0 - 1.

(** The exponent of the last place of a positive double: 52 below its binary
    exponent, and no lower than that of the subnormal numbers. *)
Definition ulp_exponent (x : Q) : Z := Z.max (ilog2 x) (-1022) - 52.

(** A positive rational rounded to 53 significant bits, ties to even, the
    exponent not bounded above. *)
Definition round_pos (x : Q) : Q :=
  let k := ulp_exponent x in
  (inject_Z (round_half_even (x * pow2 (- k))) * pow2 k)%Q.

(** The double a real result is rounded to: the nearest one, ties to even,
    and an infinity from [2^1024] on. *)
Definition round_double (x : Q) : number :=
  match (x ?= 0)%Q with
  | Eq => Finite 0
  | Gt => let r := round_pos x in
          if Qle_bool (pow2 1024) r then Infinity false else Finite (Qred r)
  | Lt => let r := round_pos (- x) in
          if Qle_bool (pow2 1024) r then Infinity true else Finite (Qred (- r))
  end.

Definition is_zero (x : number) : bool :=
  match x with
  | Finite q => Qeq_bool q 0
  | _ => false
  end.

Definition is_finite (x : number) : bool :=
  match x with
  | Finite _ => true
  | _ => false
  end.

Definition is_negative (x : number) : bool :=
  match x with
  | Finite q => Qle_bool q 0 && negb (Qeq_bool q 0)
  | NaN => false
  | Infinity s => s
  end.

(** [a + b] *)
Definition js_add (a b : number) : number :=
  match a, b with
  | NaN, _ | _, NaN => NaN
  | Infinity s, Infinity t => if Bool.eqb s t then Infinity s else NaN
  | Infinity s, Finite _ | Finite _, Infinity s => Infinity s
  | Finite x, Finite y => round_double (x + y)
  end.

(** [a / b] for a divisor that is not the negative zero: zero over zero and
    infinity over infinity are NaN, anything else over zero an infinity. *)
Definition js_div (a b : number) : number :=
  match a, b with
  | NaN, _ | _, NaN => NaN
  | Infinity _, Infinity _ => NaN
  | Infinity s, Finite _ => Infinity (xorb s (is_negative b))
  | Finite _, Infinity _ => Finite 0
  | Finite x, Finite y =>
      if Qeq_bool y 0
      then (if Qeq_bool x 0 then NaN else Infinity (is_negative a))
      else round_double (x / y)
  end.

(** [a * b] *)
Definition js_mul (a b : number) : number :=
  match a, b with
  | NaN, _ | _, NaN => NaN
  | Infinity s, Infinity t => Infinity (xorb s t)
  | Infinity s, Finite y =>
      if Qeq_bool y 0 then NaN else Infinity (xorb s (is_negative b))
  | Finite x, Infinity t =>
      if Qeq_bool x 0 then NaN else Infinity (xorb (is_negative a) t)
  | Finite x, Finite y => round_double (x * y)
  end.

(** The order of the doubles; NaN compares with nothing. *)
Definition num_le (a b : number) : Prop :=
  match a, b with
  | Finite x, Finite y => (x <= y)%Q
  | Finite _, Infinity s => s = false
  | Infinity s, Finite _ => s = true
  | Infinity s, Infinity t => s = true ∨ t = false
  | _, _ => False
  end.

(** An integer of the JSON text as [JSON.parse] delivers it: a double. *)
Definition parsed (n : Z) : number := round_double (inject_Z n).

(** [count || 0] as the card computes with it: the parsed count, and zero
    for a count that is absent, [null] or zero. *)
Definition count_or_0 (count : option Z) : number :=
  match count with
  | Some n => if is_zero (parsed n) then Finite 0 else parsed n
  | None => Finite 0
  end.

(** [a / b * 100] *)
Definition percentage (a b : number) : number :=
  js_mul (js_div a b) (Finite 100).

Definition progress_numerator (o : Order) : number :=
  js_add (js_add (count_or_0 (completed_white o)) (count_or_0 (completed_yellow o)))
         (count_or_0 (completed_black o)).

Definition progress_denominator (o : Order) : number :=
  js_add (js_add (count_or_0 (white_boxes o)) (count_or_0 (yellow_boxes o)))
         (count_or_0 (black_boxes o)).

(** The number interpolated into the bar's [width: `${...}%`]. *)
Definition progress_width (o : Order) : number :=
  percentage (progress_numerator o) (progress_denominator o).

(** [order.status === 'in_progress' && <bar/>]: the bar's width when the
    card shows one. *)
Definition progress_bar (o : Order) : option number :=
  if String.eqb (status o) "in_progress" then Some (progress_width o) else None.

(** ** Vocabulary of the statements and sample data *)

(** What [data.key] reads on an object. *)
Definition field (props : gmap string value) (key : string) : value :=
  default VUndefined (props !! key).

(** The requests among a handler's events. *)
Fixpoint requests_of (evs : list event) : list request :=
  match evs with
  | Sent r :: rest => r :: requests_of rest
  | _ :: rest => requests_of rest
  | [] => []
  end.

(** A snapshot pushed while the robot picks, and the client state after it. *)
Definition busy_snapshot : gmap string value :=
  <["orders" := VArr []]>
    (<["current_model" := VStr "white"]> (<["robot_status" := VStr "picking"]> ∅)).

Definition busy_state : AppState :=
  (run (fun _ => Rejected) (onmessage (VObj busy_snapshot)) initial_state).1.

Definition always_ok : request → response := fun _ => Fulfilled VNull.
Definition always_rejected : request → response := fun _ => Rejected.

(** A render in which the order card [3f9a1c2e-77] is the selected one. *)
Definition selected_state : AppState :=
  apply_setter (setSelectedOrderId (Some "3f9a1c2e-77")) initial_state.

(** The literal reading of "the client's robot status, current model and
    order list are the message's fields". *)
Definition mirrors_message (props : gmap string value) (st : AppState) : Prop :=
  robotStatus st = field props "robot_status"
  ∧ currentModel st = field props "current_model"
  ∧ orders st = field props "orders".

(** A snapshot whose [orders] is [null]. *)
Definition null_orders_snapshot : gmap string value :=
  <["orders" := VNull]>
    (<["current_model" := VNull]> (<["robot_status" := VStr "idle"]> ∅)).

(** A snapshot without an [orders] field. *)
Definition no_orders_snapshot : gmap string value :=
  <["current_model" := VNull]> (<["robot_status" := VStr "idle"]> ∅).

(** The order of the spec's scenario A after its first pick. *)
Definition sample_order : Order :=
  {| id := "3f9a1c2e-77"; status := "in_progress";
     white_boxes := Some 2; yellow_boxes := Some 1; black_boxes := Some 0;
     completed_white := Some 1; completed_yellow := Some 0;
     completed_black := None |}.

(** Whether the first character after the leading white space is a minus
    sign. *)
Definition has_minus_sign (s : string) : bool :=
  match trim_start s with
  | String "-" _ => true
  | _ => false
  end.

(** The form after [-5] has been typed into the white-boxes field. *)
Definition negative_form_state : AppState :=
  (run always_ok (onChange_white_boxes initial_state "-5") initial_state).1.

#[global] Instance box_color_eq_dec : EqDecision box_color.
Proof. solve_decision. Defined.

(** * The pick coordinator behind [POST /api/pick]

    The Robot State Machine, the Order Store and the Coordinator's
    [handlePick] live in the backend server ([app_v2.py], started by
    [backend/start.sh]), which is not among the sources: the client above is
    only their caller.  This module follows the spec's sections 3 to 5.

    A call of [handlePick] runs without interruption up to an actuator call,
    the only suspension points (section 5).  The system is therefore a
    transition system whose steps are: a call is issued and runs its order
    check and [requestPick]; the model load of a call in flight settles; its
    pick settles; an operator resets the robot; an order is created or
    deleted. *)
Module Coordinator.

Inductive robot_status : Type := idle | loading_model | picking | error.

Record RobotState : Type := mkRobot {
  status : robot_status;
  currentModel : option box_color
}.

Inductive order_state : Type :=
  | order_pending
  | order_in_progress
  | order_completed.

Record Order : Type := mkOrder {
  requested : box_color → nat;
  completed : box_color → nat;
  order_status : order_state
}.

Record PickRequest : Type := mkRequest {
  color : box_color;
  orderId : option nat
}.

Inductive outcome : Type :=
  | Success
  | Busy
  | OrderNotFound
  | OrderExhausted
  | ModelLoadFailed
  | PickFailed.

(** Where a call of [handlePick] stands: suspended in the model load,
    suspended in the pick, or returned. *)
Inductive phase : Type :=
  | Loading
  | Picking
  | Returned (result : outcome).

Record call : Type := mkCall {
  request : PickRequest;
  where_ : phase
}.

Record System : Type := mkSystem {
  robot : RobotState;
  store : gmap nat Order;
  calls : list call
}.

(** *** Order Store (section 4.2) *)

Definition all_met (o : Order) : bool :=
  (completed o white =? requested o white)%nat
  && (completed o yellow =? requested o yellow)%nat
  && (completed o black =? requested o black)%nat.

(** Modelled from the spec: the Order Store's [create] (section 4.2, backend
    not in the sources).  Nothing is completed yet; a zero-requirement order
    is [completed] at once. *)
Definition create (wanted : box_color → nat) : Order :=
  let o := mkOrder wanted (fun _ => 0%nat) order_pending in
  if all_met o then mkOrder wanted (fun _ => 0%nat) order_completed else o.

Inductive record_result : Type :=
  | Recorded (o : Order)
  | NotFound
  | Exhausted.

(** Modelled from the spec: the Order Store's [recordPick] (section 4.2,
    backend not in the sources): [NotFound], [Exhausted], or the order with
    the colour's counter incremented and its status recomputed. *)
Definition recordPick (orders : gmap nat Order) (order : nat) (c : box_color)
  : record_result :=
  match orders !! order with
  | None => NotFound
  | Some o =>
      if (requested o c <=? completed o c)%nat then Exhausted
      else
        let done := fun c' => if decide (c' = c) then S (completed o c')
                              else completed o c' in
        let o' := mkOrder (requested o) done order_in_progress in
        Recorded (if all_met o' then mkOrder (requested o) done order_completed
                  else o')
  end.

(** *** Robot State Machine (section 4.1) *)

(** Modelled from the spec: the Robot State Machine's [requestPick(color)]
    (section 4.1, backend not in the sources) up to its first actuator
    call.  [None] is [Busy]: the status is not [idle].  A loaded model that
    matches skips the load. *)
Definition requestPick (r : RobotState) (c : box_color)
  : option (RobotState * phase) :=
  match status r with
  | idle =>
      if decide (currentModel r = Some c)
      then Some (mkRobot picking (currentModel r), Picking)
      else Some (mkRobot loading_model (currentModel r), Loading)
  | _ => None
  end.

(** *** Coordinator (section 4.3) *)

(** Modelled from the spec: step 1 of the Coordinator's [handlePick]
    (section 4.3, backend not in the sources).  The order named by the
    request must exist and still need the colour. *)
Definition check_order (orders : gmap nat Order) (req : PickRequest)
  : option outcome :=
  match orderId req with
  | None => None
  | Some order =>
      match orders !! order with
      | None => Some OrderNotFound
      | Some o =>
          if (requested o (color req) <=? completed o (color req))%nat
          then Some OrderExhausted
          else None
      end
  end.

(** Modelled from the spec: steps 1 and 2 of the Coordinator's [handlePick]
    (section 4.3, backend not in the sources) for a call that is issued
    now: the order check first, then [requestPick]. *)
Definition issue (s : System) (req : PickRequest) : System :=
  match check_order (store s) req with
  | Some failure =>
      mkSystem (robot s) (store s) (calls s ++ [mkCall req (Returned failure)])
  | None =>
      match requestPick (robot s) (color req) with
      | None =>
          mkSystem (robot s) (store s) (calls s ++ [mkCall req (Returned Busy)])
      | Some (r, ph) =>
          mkSystem r (store s) (calls s ++ [mkCall req ph])
      end
  end.

(** Modelled from the spec: step 3 of the Coordinator's [handlePick]
    (section 4.3, backend not in the sources).  The order is credited if one
    was named and can take the pick. *)
Definition credit (orders : gmap nat Order) (req : PickRequest) : gmap nat Order :=
  match orderId req with
  | None => orders
  | Some order =>
      match recordPick orders order (color req) with
      | Recorded o => <[order := o]> orders
      | _ => orders
      end
  end.

Inductive label : Type :=
  | Issue (req : PickRequest)
  | LoadDone (i : nat) (ok : bool)
  | PickDone (i : nat) (ok : bool)
  | Reset
  | CreateOrder (order : nat) (wanted : box_color → nat)
  | DeleteOrder (order : nat).

(** Modelled from the spec: one step of the coordinator as sections 4.1, 4.3
    and 5 describe it (backend not in the sources).  [None] when the step is
    not enabled: no such suspended call, no [error] to reset, an id that is
    taken, or a delete that reports [NotFound] and changes nothing.  A failed
    actuator call puts the robot in [error] and leaves the store alone; a
    model that was loaded stays loaded. *)
Definition step (s : System) (l : label) : option System :=
  match l with
  | Issue req => Some (issue s req)
  | LoadDone i ok =>
      match calls s !! i with
      | Some (mkCall req Loading) =>
          if ok
          then Some (mkSystem (mkRobot picking (Some (color req))) (store s)
                              (<[i := mkCall req Picking]> (calls s)))
          else Some (mkSystem (mkRobot error (currentModel (robot s))) (store s)
                              (<[i := mkCall req (Returned ModelLoadFailed)]> (calls s)))
      | _ => None
      end
  | PickDone i ok =>
      match calls s !! i with
      | Some (mkCall req Picking) =>
          if ok
          then Some (mkSystem (mkRobot idle (currentModel (robot s)))
                              (credit (store s) req)
                              (<[i := mkCall req (Returned Success)]> (calls s)))
          else Some (mkSystem (mkRobot error (currentModel (robot s))) (store s)
                              (<[i := mkCall req (Returned PickFailed)]> (calls s)))
      | _ => None
      end
  | Reset =>
      match status (robot s) with
      | error => Some (mkSystem (mkRobot idle (currentModel (robot s)))
                                (store s) (calls s))
      | _ => None
      end
  | CreateOrder order wanted =>
      match store s !! order with
      | None => Some (mkSystem (robot s) (<[order := create wanted]> (store s))
                               (calls s))
      | Some _ => None
      end
  | DeleteOrder order =>
      match store s !! order with
      | Some _ => Some (mkSystem (robot s) (delete order (store s)) (calls s))
      | None => None
      end
  end.

(** The states the system can be in: it starts with no call, whatever the
    robot and the store hold then, and moves by enabled steps. *)
Inductive reachable : System → Prop :=
  | reachable_start r orders : reachable (mkSystem r orders [])
  | reachable_step s l s' : reachable s → step s l = Some s' → reachable s'.

Definition moves (s s' : System) : Prop := ∃ l, step s l = Some s'.

(** A call that owns the robot. *)
Definition in_flight (c : call) : bool :=
  match where_ c with
  | Loading | Picking => true
  | Returned _ => false
  end.

(** Call number [i] is in flight. *)
Definition owns (s : System) (i : nat) : Prop :=
  ∃ c, calls s !! i = Some c ∧ in_flight c = true.

(** A suspended call shows in the robot status. *)
Definition phase_matches (st : robot_status) (ph : phase) : Prop :=
  match ph with
  | Loading => st = loading_model
  | Picking => st = picking
  | Returned _ => True
  end.

Definition invariant (s : System) : Prop :=
  (∀ i j, owns s i → owns s j → i = j)
  ∧ (∀ i c, calls s !! i = Some c → phase_matches (status (robot s)) (where_ c)).

(** The call got the robot: it is in flight, or it returned what only a
    call that was in flight returns. *)
Definition got_robot (ph : phase) : bool :=
  match ph with
  | Loading | Picking => true
  | Returned Success | Returned ModelLoadFailed | Returned PickFailed => true
  | Returned _ => false
  end.

(** What a call is told when it cannot have the robot. *)
Definition rejection (orders : gmap nat Order) (req : PickRequest) : outcome :=
  match check_order orders req with
  | Some failure => failure
  | None => Busy
  end.

(** The literal reading of "a call issued while another is in
    [loading_model] or [picking] receives [Busy]". *)
Definition later_call_busy : Prop :=
  ∀ s i req, reachable s → owns s i →
    calls (issue s req) !! length (calls s) = Some (mkCall req (Returned Busy)).

(** Scenario: a free-standing pick of white on an idle robot with nothing
    loaded is suspended in its model load when a second pick arrives that
    names order 7, which does not exist. *)
Definition first_pick : PickRequest := mkRequest white None.
Definition second_pick : PickRequest := mkRequest yellow (Some 7%nat).
Definition start : System := mkSystem (mkRobot idle None) ∅ [].
Definition one_in_flight : System := issue start first_pick.

End Coordinator.

(** * The client as an event loop

    Between the events of the page each handler runs on its own, up to its
    first [await]; the rest of it runs when the request settles, on the state
    cells as they are by then and with the values its closure captured at the
    click. *)

(** A request that was sent and has not settled: the two ways its [await]
    continues. *)
Record awaiting : Type := mkAwaiting {
  sent : request;
  on_data : value → cmd;
  on_error : cmd
}.

Record Client : Type := mkClient {
  cells : AppState;
  waiting : list awaiting
}.

(** Run a handler body up to its first [await]: the request goes out and its
    continuations are parked. *)
Fixpoint run_sync (c : cmd) (cl : Client) : Client * list event :=
  match c with
  | Done => (cl, [])
  | Throw => (cl, [Uncaught])
  | Call u k => run_sync k (mkClient (apply_setter u (cells cl)) (waiting cl))
  | Await r ok err =>
      (mkClient (cells cl) (waiting cl ++ [mkAwaiting r ok err]), [Sent r])
  | ConsoleError msg k =>
      let rest := run_sync k cl in
      (rest.1, Logged msg :: rest.2)
  end.

(** The three count fields of the create-order form. *)
Inductive count_field : Type := WhiteBoxes | YellowBoxes | BlackBoxes.

Definition field_key (f : count_field) : string :=
  match f with
  | WhiteBoxes => "white_boxes"
  | YellowBoxes => "yellow_boxes"
  | BlackBoxes => "black_boxes"
  end.

(** What can happen to the page: the mount effect, a pushed message, the
    clicks and edits the JSX wires to a handler, and the settling of a
    request. *)
Inductive ui_event : Type :=
  | Mounted
  | Message (data : value)
  | PickClicked (color : string)
  | PlusClicked
  | CardClicked (order_id : string)
  | DeleteClicked (order_id : string)
  | ModalDismissed
  | CountChanged (f : count_field) (target_value : string)
  | CreateClicked
  | Settled (i : nat) (resp : response).

(** The handler the render of state [st] attaches to an event:
    [useEffect]'s [fetchOrders()], [websocket.onmessage], the [onClick] and
    [onChange] arrows of the JSX.  The settling of a request has no handler
    of its own: [dispatch] resumes the parked continuation. *)
Definition handler (st : AppState) (ev : ui_event) : cmd :=
  match ev with
  | Mounted => fetchOrders
  | Message data => onmessage data
  | PickClicked color => handlePick st color
  | PlusClicked => Call (setShowCreateOrder true) Done
  | CardClicked order_id => Call (setSelectedOrderId (Some order_id)) Done
  | DeleteClicked order_id => deleteOrder st order_id
  | ModalDismissed => Call (setShowCreateOrder false) Done
  | CountChanged f target_value => onChange (field_key f) st target_value
  | CreateClicked => createOrder st
  | Settled _ _ => Done
  end.

(** One turn of the event loop. *)
Definition dispatch (cl : Client) (ev : ui_event) : Client * list event :=
  match ev with
  | Settled i resp =>
      match waiting cl !! i with
      | Some w =>
          run_sync (match resp with
                    | Fulfilled data => on_data w data
                    | Rejected => on_error w
                    end)
                   (mkClient (cells cl) (delete i (waiting cl)))
      | None => (cl, [])
      end
  | _ => run_sync (handler (cells cl) ev) cl
  end.

(** The states the page can be in. *)
Inductive client_reachable : Client → Prop :=
  | client_start : client_reachable (mkClient initial_state [])
  | client_step cl ev :
      client_reachable cl → client_reachable (dispatch cl ev).1.

Fixpoint dispatch_all (cl : Client) (evs : list ui_event) : Client :=
  match evs with
  | ev :: rest => dispatch_all (dispatch cl ev).1 rest
  | [] => cl
  end.

Definition is_message (ev : ui_event) : bool :=
  match ev with Message _ => true | _ => false end.

(** [status === 'picking' || status === 'loading_model'] *)
Definition busy_status (status : value) : bool :=
  strict_eq_str status "picking" || strict_eq_str status "loading_model".

(** The create-order form with the given counts. *)
Definition count_form (w y b : Z) : gmap string value :=
  <["black_boxes" := VNum (inject_Z b)]>
    (<["yellow_boxes" := VNum (inject_Z y)]>
       (<["white_boxes" := VNum (inject_Z w)]> ∅)).

(** A parked request is the first [await] of one of the handlers. *)
Definition from_handler (w : awaiting) : Prop :=
  ∃ st ev, (∃ wh ye bl : Z, newOrder st = count_form wh ye bl)
           ∧ handler st ev = Await (sent w) (on_data w) (on_error w).

Definition client_invariant (cl : Client) : Prop :=
  isPickingInProgress (cells cl) = busy_status (robotStatus (cells cl))
  ∧ (∃ w y b : Z, newOrder (cells cl) = count_form w y b)
  ∧ Forall from_handler (waiting cl).

(** The continuations [fetchOrders] parks. *)
Definition fetch_awaiting : awaiting :=
  mkAwaiting (HttpGet (API_URL ++ "/api/orders"))
             (fun data => Call (setOrders data) Done)
             (ConsoleError "Error fetching orders:" Done).

(** The spinner inside the pick button of a colour:
    [currentModel === color && robotStatus === 'loading_model'].  The button
    itself is [disabled={isPickingInProgress}]. *)
Definition spinner_shown (st : AppState) (color : string) : bool :=
  strict_eq_str (currentModel st) color
  && strict_eq_str (robotStatus st) "loading_model".

(** The page after its first snapshot, one that reports a pick under way. *)
Definition busy_client : Client :=
  (dispatch (mkClient initial_state []) (Message (VObj busy_snapshot))).1.

(** The page with the create-order request of the default form in flight. *)
Definition creating_client : Client :=
  (dispatch (mkClient initial_state []) CreateClicked).1.

(** The page with the mount effect's [GET /api/orders] in flight. *)
Definition mounted_client : Client :=
  (dispatch (mkClient initial_state []) Mounted).1.

(** A snapshot pushed while the robot loads the model it had loaded for
    white, and the page after it. *)
Definition loading_snapshot : gmap string value :=
  <["orders" := VArr []]>
    (<["current_model" := VStr "white"]>
       (<["robot_status" := VStr "loading_model"]> ∅)).

Definition loading_client : Client :=
  (dispatch (mkClient initial_state []) (Message (VObj loading_snapshot))).1.

Definition not_a_message (ev : ui_event) : bool := negb (is_message ev).

(** The page after the card of order [3f9a1c2e-77] was clicked. *)
Definition selected_client : Client :=
  (dispatch (mkClient initial_state []) (CardClicked "3f9a1c2e-77")).1.

(** The form after one of its counts was edited. *)
Definition edited_form (f : count_field) (n w y b : Z) : gmap string value :=
  match f with
  | WhiteBoxes => count_form n y b
  | YellowBoxes => count_form w n b
  | BlackBoxes => count_form w y n
  end.

(** [String(n)] for an integer [n] of magnitude at most 2^53, as React puts
    it into a count field ([value={newOrder.white_boxes}]): the decimal
    digits, after a minus sign when negative.  (Beyond 2^53 JavaScript prints
    the shortest digits that identify the double, and from 10^21 on an
    exponent.) *)
Definition Number_toString (n : Z) : string := pretty n.

Definition safe_integer (n : Z) : Prop := - 2 ^ 53 ≤ n ≤ 2 ^ 53.

(** The class of a card's status badge:
    [order.status === 'completed' ? green : order.status === 'in_progress' ?
    blue : gray]. *)
Definition status_badge (o : Order) : string :=
  if String.eqb (status o) "completed" then "bg-green-500/20 text-green-400"
  else if String.eqb (status o) "in_progress" then "bg-blue-500/20 text-blue-400"
  else "bg-gray-500/20 text-gray-400".


(** The sample order one pick later. *)
Definition sample_order_later : Order :=
  {| id := "3f9a1c2e-77"; status := "in_progress";
     white_boxes := Some 2; yellow_boxes := Some 1; black_boxes := Some 0;
     completed_white := Some 2; completed_yellow := Some 0;
     completed_black := None |}.

(** An order that requests nothing and is reported in progress all the same. *)
Definition empty_order : Order :=
  {| id := "00000000-00"; status := "in_progress";
     white_boxes := Some 0; yellow_boxes := Some 0; black_boxes := None;
     completed_white := Some 0; completed_yellow := Some 0;
     completed_black := None |}.

(** The page with a pick request in flight. *)
Definition picking_client : Client :=
  (dispatch (mkClient initial_state []) (PickClicked "white")).1.

(** The page with the selected order's DELETE in flight. *)
Definition deleting_client : Client :=
  (dispatch selected_client (DeleteClicked "3f9a1c2e-77")).1.

(** A parsed message that has properties to read but is no object: a
    boolean, a number, a string or an array. *)
Definition is_primitive_or_array (data : value) : bool :=
  match data with
  | VBool _ | VNum _ | VStr _ | VArr _ => true
  | _ => false
  end.

#[global] Instance count_field_eq_dec : EqDecision count_field.
Proof. solve_decision. Defined.

(** The counts of an order are in range: between zero and the requested
    count for every colour. *)
Definition counts_in_range (o : Order) : Prop :=
  ∀ c : box_color, 0 ≤ completed o c ≤ requested o c.

(** The literal reading of "the bar's divisor is not zero and its width lies
    between 0 and 100". *)
Definition width_in_range (o : Order) : Prop :=
  is_zero (progress_denominator o) = false
  ∧ ∃ q : Q, progress_bar o = Some (Finite q) ∧ (0 <= q)%Q ∧ (q <= 100)%Q.

(** An order in progress whose white and yellow counts are 10^308, all of
    them picked. *)
Definition huge_order : Order :=
  {| id := "ffffffff-ff"; status := "in_progress";
     white_boxes := Some (10 ^ 308); yellow_boxes := Some (10 ^ 308);
     black_boxes := Some 0;
     completed_white := Some (10 ^ 308); completed_yellow := Some (10 ^ 308);
     completed_black := Some 0 |}.

(** An edit is safe when [parseInt] reads the typed text as an integer of
    magnitude at most 2^53: up to there the double JavaScript computes is
    that very integer.  Every other event is safe. *)
Definition safe_event (ev : ui_event) : Prop :=
  match ev with
  | CountChanged _ target_value => safe_integer (parseInt_or_0 target_value)
  | _ => True
  end.

(** The states the page reaches when every edit of a count field is safe. *)
Inductive safely_reachable : Client → Prop :=
  | safe_start : safely_reachable (mkClient initial_state [])
  | safe_step cl ev :
      safely_reachable cl → safe_event ev → safely_reachable (dispatch cl ev).1.

(** A create-order form whose three counts are safe integers. *)
Definition safe_form (form : gmap string value) : Prop :=
  ∃ w y b : Z,
    safe_integer w ∧ safe_integer y ∧ safe_integer b ∧ form = count_form w y b.

(** The requests the client has a call site for. *)
Definition known_request (r : request) : Prop :=
  r = HttpGet (API_URL ++ "/api/orders")
  ∨ (∃ form, safe_form form ∧ r = HttpPost (API_URL ++ "/api/orders") (VObj form))
  ∨ (∃ color order_id,
       r = HttpPost (API_URL ++ "/api/pick") (VObj (pick_body color order_id)))
  ∨ (∃ order_id, r = HttpDelete (API_URL ++ "/api/orders/" ++ order_id)).

(** The page after a safe edit of the black count. *)
Definition edited_client : Client :=
  (dispatch (mkClient initial_state []) (CountChanged BlackBoxes "3")).1.

(** * Properties of the dashboard client *)

(** ** Helper facts *)

Lemma get_prop_object props key :
  get_prop (VObj props) key = Some (field props key).
Proof. reflexivity. Qed.

Lemma strict_eq_str_true v lit :
  strict_eq_str v lit = true ↔ v = VStr lit.
Proof.
  destruct v as [| |b|q|s|l|m]; simpl; try (split; [discriminate | discriminate]).
  rewrite String.eqb_eq. split; [intros ->; reflexivity | intros [= ->]; reflexivity].
Qed.

Lemma strict_eq_str_false v lit :
  strict_eq_str v lit = false ↔ v ≠ VStr lit.
Proof.
  rewrite <- strict_eq_str_true. destruct (strict_eq_str v lit); split; congruence.
Qed.

(** The state [onmessage] leaves behind on an object message. *)
Lemma run_onmessage_object server props st :
  run server (onmessage (VObj props)) st =
  (mkApp (field props "robot_status")
         (field props "current_model")
         (js_or (field props "orders") (VArr []))
         (showCreateOrder st) (newOrder st) (selectedOrderId st)
         (strict_eq_str (field props "robot_status") "picking"
          || strict_eq_str (field props "robot_status") "loading_model"),
   []).
Proof. reflexivity. Qed.

(** A message that is [null] makes the handler throw before any setter. *)
Lemma run_onmessage_null server st :
  run server (onmessage VNull) st = (st, [Uncaught]).
Proof. reflexivity. Qed.

(** ** C2: the busy flag *)

(** C2. After [onmessage] has handled a pushed message, the busy flag
    [isPickingInProgress] is true exactly when the message's [robot_status]
    field is the string ['picking'] or the string ['loading_model']; any
    other status, a missing one included, leaves it false. *)
Theorem onmessage_busy_flag server (props : gmap string value) (st : AppState) :
  isPickingInProgress (run server (onmessage (VObj props)) st).1 = true
  ↔ (field props "robot_status" = VStr "picking"
     ∨ field props "robot_status" = VStr "loading_model").
Proof.
  rewrite run_onmessage_object. cbn [fst isPickingInProgress].
  rewrite orb_true_iff, !strict_eq_str_true. reflexivity.
Qed.

(** ** C3: a busy client does nothing on a pick click *)

(** C3. With the busy flag set in the render that created it, [handlePick]
    returns at once: no request is sent, nothing is logged, and the state
    cells are left as they are. *)
Theorem handlePick_busy_noop (st : AppState) (color : string) :
  isPickingInProgress st = true →
  ∀ server cur, run server (handlePick st color) cur = (cur, []).
Proof.
  intros Hbusy server cur. unfold handlePick. rewrite Hbusy. reflexivity.
Qed.

(** The same, from the snapshot that set the flag. *)
Lemma handlePick_after_busy_snapshot server props st color :
  field props "robot_status" = VStr "picking"
  ∨ field props "robot_status" = VStr "loading_model" →
  let st' := (run server (onmessage (VObj props)) st).1 in
  run server (handlePick st' color) st' = (st', []).
Proof.
  intros Hstatus st'. unfold handlePick.
  assert (Hflag : isPickingInProgress st' = true).
  { subst st'. rewrite run_onmessage_object. cbn [fst isPickingInProgress].
    rewrite orb_true_iff, !strict_eq_str_true. exact Hstatus. }
  rewrite Hflag. reflexivity.
Qed.

Lemma handlePick_busy_noop_witness :
  isPickingInProgress busy_state = true
  ∧ run (fun _ => Fulfilled VNull) (handlePick busy_state "white") busy_state
    = (busy_state, []).
Proof.
  split; [reflexivity |].
  apply (handlePick_busy_noop busy_state "white"); reflexivity.
Defined.

(** ** C6: deleting the selected order clears the selection *)

Lemma run_fetchOrders_selection server st :
  selectedOrderId (run server fetchOrders st).1 = selectedOrderId st.
Proof.
  unfold fetchOrders. cbn [run]. destruct (server _); reflexivity.
Qed.

Lemma is_selected_true st orderId :
  is_selected st orderId = true ↔ selectedOrderId st = Some orderId.
Proof.
  unfold is_selected. destruct (selectedOrderId st) as [s|]; [| split; discriminate].
  rewrite String.eqb_eq. split; [intros ->; reflexivity | intros [= ->]; reflexivity].
Qed.

(** C6. Once the DELETE request of [deleteOrder(orderId)] has succeeded: if
    [orderId] was the selected order (in the render the handler belongs to),
    [selectedOrderId] is [null] afterwards; if it was not, [selectedOrderId]
    is what it was.  [cur] is the state the response finds; in the plain case
    it is [st] itself. *)
Theorem deleteOrder_selection server (st cur : AppState) (orderId : string) data :
  server (HttpDelete (API_URL ++ "/api/orders/" ++ orderId)) = Fulfilled data →
  selectedOrderId (run server (deleteOrder st orderId) cur).1
  = if decide (selectedOrderId st = Some orderId) then None
    else selectedOrderId cur.
Proof.
  intros Hok. unfold deleteOrder. cbn [run]. rewrite Hok. cbn [fst].
  destruct (is_selected st orderId) eqn:Hsel.
  - apply is_selected_true in Hsel.
    rewrite decide_True by exact Hsel.
    cbn [run]. rewrite run_fetchOrders_selection. reflexivity.
  - rewrite decide_False.
    + apply run_fetchOrders_selection.
    + intros Heq. apply is_selected_true in Heq. congruence.
Qed.

Lemma deleteOrder_selection_witness :
  always_ok (HttpDelete (API_URL ++ "/api/orders/" ++ "3f9a1c2e-77")) = Fulfilled VNull
  ∧ selectedOrderId
      (run always_ok (deleteOrder selected_state "3f9a1c2e-77") selected_state).1
    = None.
Proof.
  split; [reflexivity |].
  exact (deleteOrder_selection always_ok selected_state selected_state
           "3f9a1c2e-77" VNull eq_refl).
Defined.

(** A failed DELETE leaves the selection alone. *)
Lemma deleteOrder_rejected server st cur orderId :
  server (HttpDelete (API_URL ++ "/api/orders/" ++ orderId)) = Rejected →
  (run server (deleteOrder st orderId) cur).1 = cur.
Proof.
  intros Hrej. unfold deleteOrder. cbn [run]. rewrite Hrej. reflexivity.
Qed.

(** ** C7: the body of a pick request *)

Lemma pick_body_dom color sel :
  dom (pick_body color sel) =@{gset string} {["color"; "order_id"]}.
Proof.
  unfold pick_body. rewrite !dom_insert_L, dom_empty_L. set_solver.
Qed.

(** C7. The requests [handlePick(color)] issues are: none when busy, and
    otherwise the single POST to [/api/pick] whose body has exactly the two
    fields [color], the colour asked for, and [order_id], the selected order's
    id or [null] when no order is selected. *)
Theorem handlePick_request_body server (st cur : AppState) (color : string) :
  let body := pick_body color (selectedOrderId st) in
  requests_of (run server (handlePick st color) cur).2
  = (if isPickingInProgress st then []
     else [HttpPost (API_URL ++ "/api/pick") (VObj body)])
  ∧ body !! "color" = Some (VStr color)
  ∧ body !! "order_id"
    = Some (match selectedOrderId st with
            | Some order_id => VStr order_id
            | None => VNull
            end)
  ∧ dom body =@{gset string} {["color"; "order_id"]}.
Proof.
  intros body. split; [| split; [| split]].
  - unfold handlePick. destruct (isPickingInProgress st); [reflexivity |].
    cbn [run]. destruct (server _); reflexivity.
  - subst body. unfold pick_body.
    rewrite lookup_insert_ne by discriminate. apply lookup_insert_eq.
  - subst body. unfold pick_body. rewrite lookup_insert_eq.
    destruct (selectedOrderId st); reflexivity.
  - apply pick_body_dom.
Qed.

(** ** C8: a message overwrites the snapshot cells *)

(** C8 as stated fails on a message whose [orders] is [null]: the field does
    not end up in the order list as it is, the list becomes the empty
    array. *)
Lemma onmessage_null_orders_not_mirrored :
  field null_orders_snapshot "orders" = VNull
  ∧ orders (run always_ok (onmessage (VObj null_orders_snapshot)) initial_state).1
    = VArr []
  ∧ ¬ mirrors_message null_orders_snapshot
        (run always_ok (onmessage (VObj null_orders_snapshot)) initial_state).1.
Proof.
  split; [reflexivity | split; [reflexivity |]].
  intros (_ & _ & Horders). vm_compute in Horders. discriminate Horders.
Qed.

(** C8, amended. On every pushed message the client overwrites its robot
    status with the message's [robot_status], its current model with the
    message's [current_model], and its order list with the message's [orders]
    when that field is truthy and with the empty array when it is absent or
    falsy.  The three cells are a function of the message alone: nothing of
    the previous snapshot is kept or merged. *)
Theorem onmessage_replaces_snapshot server (props : gmap string value) (st : AppState) :
  let st' := (run server (onmessage (VObj props)) st).1 in
  robotStatus st' = field props "robot_status"
  ∧ currentModel st' = field props "current_model"
  ∧ orders st'
    = (if truthy (field props "orders") then field props "orders" else VArr []).
Proof.
  rewrite run_onmessage_object. cbn [fst]. repeat split.
Qed.

(** With a truthy [orders] field, an array in particular, the literal reading
    holds. *)
Lemma onmessage_mirrors_truthy server props st :
  truthy (field props "orders") = true →
  mirrors_message props (run server (onmessage (VObj props)) st).1.
Proof.
  intros Htruthy. rewrite run_onmessage_object. unfold mirrors_message.
  cbn [fst robotStatus currentModel orders]. unfold js_or. rewrite Htruthy.
  repeat split.
Qed.

(** Two clients with different histories agree after the same message. *)
Lemma onmessage_forgets_prior server props st1 st2 :
  let a := (run server (onmessage (VObj props)) st1).1 in
  let b := (run server (onmessage (VObj props)) st2).1 in
  robotStatus a = robotStatus b
  ∧ currentModel a = currentModel b
  ∧ orders a = orders b
  ∧ isPickingInProgress a = isPickingInProgress b.
Proof. rewrite !run_onmessage_object. repeat split. Qed.

(** ** C9: status rendering has a default *)

(** C9. [getStatusColor] and [getStatusIcon] give a result for every status
    value: one of the five colour classes and one of the five icons, and for
    a status that is none of [idle], [loading_model], [picking], [error] the
    default ones, the gray class and the plain activity icon. *)
Theorem status_rendering_default (status : value) :
  getStatusColor status
    ∈ ["text-green-400"; "text-yellow-400"; "text-blue-400"; "text-red-400";
       "text-gray-400"]
  ∧ (status ≠ VStr "idle" → status ≠ VStr "loading_model" →
     status ≠ VStr "picking" → status ≠ VStr "error" →
     getStatusColor status = "text-gray-400"
     ∧ getStatusIcon status = mkElement Activity "w-5 h-5").
Proof.
  split.
  - unfold getStatusColor.
    repeat (destruct (strict_eq_str status _); [set_solver |]). set_solver.
  - intros H1 H2 H3 H4.
    apply strict_eq_str_false in H1, H2, H3, H4.
    unfold getStatusColor, getStatusIcon. rewrite H1, H2, H3, H4. split; reflexivity.
Qed.

Lemma status_rendering_default_witness :
  (VStr "paused" ≠ VStr "idle" ∧ VStr "paused" ≠ VStr "loading_model"
   ∧ VStr "paused" ≠ VStr "picking" ∧ VStr "paused" ≠ VStr "error")
  ∧ getStatusColor (VStr "paused") = "text-gray-400"
  ∧ getStatusIcon (VStr "paused") = mkElement Activity "w-5 h-5".
Proof.
  split; [repeat split; discriminate |].
  apply (proj2 (status_rendering_default (VStr "paused"))); discriminate.
Defined.

(** The known statuses keep their own colours. *)
Lemma getStatusColor_known :
  getStatusColor (VStr "idle") = "text-green-400"
  ∧ getStatusColor (VStr "loading_model") = "text-yellow-400"
  ∧ getStatusColor (VStr "picking") = "text-blue-400"
  ∧ getStatusColor (VStr "error") = "text-red-400"
  ∧ getStatusColor VUndefined = "text-gray-400".
Proof. repeat split. Qed.

(** ** C10: a missing order list becomes the empty array *)

(** C10. When the message's [orders] field is absent, [null] or otherwise
    falsy, [onmessage] sets the order list to the empty array, so the list is
    an array afterwards. *)
Theorem onmessage_falsy_orders server (props : gmap string value) (st : AppState) :
  truthy (field props "orders") = false →
  orders (run server (onmessage (VObj props)) st).1 = VArr []
  ∧ is_array (orders (run server (onmessage (VObj props)) st).1) = true.
Proof.
  intros Hfalsy. rewrite run_onmessage_object. cbn [fst orders].
  unfold js_or. rewrite Hfalsy. split; reflexivity.
Qed.

Lemma onmessage_falsy_orders_witness :
  truthy (field no_orders_snapshot "orders") = false
  ∧ orders (run always_ok (onmessage (VObj no_orders_snapshot)) busy_state).1 = VArr []
  ∧ is_array (orders (run always_ok (onmessage (VObj no_orders_snapshot)) busy_state).1)
    = true.
Proof.
  split; [reflexivity |].
  apply (onmessage_falsy_orders always_ok no_orders_snapshot busy_state).
  reflexivity.
Defined.

(** Absent and [null] are the two falsy cases a server produces. *)
Lemma absent_or_null_is_falsy props :
  props !! "orders" = None ∨ props !! "orders" = Some VNull →
  truthy (field props "orders") = false.
Proof. unfold field. intros [-> | ->]; reflexivity. Qed.

(** An array, or nothing usable, in the message: an array in the state. *)
Lemma onmessage_orders_is_array server props st :
  is_array (field props "orders") = true ∨ truthy (field props "orders") = false →
  is_array (orders (run server (onmessage (VObj props)) st).1) = true.
Proof.
  rewrite run_onmessage_object. cbn [fst orders]. unfold js_or.
  intros [Harr | Hfalsy].
  - destruct (field props "orders"); try discriminate Harr. reflexivity.
  - rewrite Hfalsy. reflexivity.
Qed.

(** ** Rounding to a double

    What the proofs below use of [round_double]: it is monotone, and a number
    that fits the 53 bits rounds to itself. *)

Lemma pow2_pos k : (0 < pow2 k)%Q.
Proof. apply Qpower_0_lt. reflexivity. Qed.

Lemma pow2_add a b : (pow2 (a + b) == pow2 a * pow2 b)%Q.
Proof. apply Qpower_plus. discriminate. Qed.

Lemma pow2_le a b : a ≤ b → (pow2 a <= pow2 b)%Q.
Proof. intros H. apply Qpower_le_compat_l; [exact H | discriminate]. Qed.

Lemma pow2_lt a b : a < b → (pow2 a < pow2 b)%Q.
Proof. intros H. apply Qpower_lt_compat_l; [exact H | reflexivity]. Qed.

Lemma pow2_inject k : 0 ≤ k → (pow2 k == inject_Z (2 ^ k))%Q.
Proof. intros H. unfold pow2. rewrite Zpower_Qpower by exact H. reflexivity. Qed.


Lemma round_half_even_bounds x :
  Qfloor x ≤ round_half_even x ≤ Qfloor x + 1.
Proof.
  unfold round_half_even.
  destruct (x - inject_Z (Qfloor x) ?= 1 # 2)%Q; [destruct (Z.even _) | |]; lia.
Qed.

Lemma round_half_even_Z k : round_half_even (inject_Z k) = k.
Proof.
  unfold round_half_even. rewrite Qfloor_Z.
  assert (H : (inject_Z k - inject_Z k ?= 1 # 2)%Q = Lt).
  { apply (proj1 (Qlt_alt _ _)). lra. }
  by rewrite H.
Qed.

Lemma round_half_even_mono x y :
  (x <= y)%Q → round_half_even x ≤ round_half_even y.
Proof.
  intros Hxy.
  pose proof (Qfloor_resp_le x y Hxy) as Hfl.
  pose proof (round_half_even_bounds x) as Hx.
  pose proof (round_half_even_bounds y) as Hy.
  destruct (decide (Qfloor x = Qfloor y)) as [Heq | Hne]; [| lia].
  unfold round_half_even in *. rewrite <- Heq in *.
  destruct (x - inject_Z (Qfloor x) ?= 1 # 2)%Q eqn:Hcx;
    destruct (y - inject_Z (Qfloor x) ?= 1 # 2)%Q eqn:Hcy;
    try (destruct (Z.even (Qfloor x))); try lia;
    try apply (proj2 (Qeq_alt _ _)) in Hcx; try apply (proj2 (Qlt_alt _ _)) in Hcx;
    try apply (proj2 (Qgt_alt _ _)) in Hcx;
    try apply (proj2 (Qeq_alt _ _)) in Hcy; try apply (proj2 (Qlt_alt _ _)) in Hcy;
    try apply (proj2 (Qgt_alt _ _)) in Hcy;
    exfalso; lra.
Qed.

Lemma round_half_even_proper x y : (x == y)%Q → round_half_even x = round_half_even y.
Proof.
  intros H. apply Z.le_antisymm; apply round_half_even_mono; lra.
Qed.

Lemma round_half_even_ge k x : (inject_Z k <= x)%Q → k ≤ round_half_even x.
Proof. intros H. rewrite <- (round_half_even_Z k). by apply round_half_even_mono. Qed.

Lemma round_half_even_le k x : (x <= inject_Z k)%Q → round_half_even x ≤ k.
Proof. intros H. rewrite <- (round_half_even_Z k). by apply round_half_even_mono. Qed.

Lemma pow2_log2 (n : Z) :
  0 < n → (pow2 (Z.log2 n) <= inject_Z n)%Q ∧ (inject_Z n < pow2 (Z.log2 n + 1))%Q.
Proof.
  intros Hn. destruct (Z.log2_spec n Hn) as [Hlo Hhi].
  pose proof (Z.log2_nonneg n) as Hnn.
  rewrite !pow2_inject by lia. rewrite <- Zle_Qle, <- Zlt_Qlt.
  split; [exact Hlo | exact Hhi].
Qed.

Lemma ilog2_rough (x : Q) :
  (0 < x)%Q →
  let e0 := Z.log2 (Qnum x) - Z.log2 (Z.pos (Qden x)) in
  (pow2 (e0 - 1) < x)%Q ∧ (x < pow2 (e0 + 1))%Q.
Proof.
  intros Hx e0.
  destruct x as [n d]. cbn [Qnum Qden] in e0.
  assert (Hn : 0 < n) by (unfold Qlt in Hx; cbn in Hx; lia).
  destruct (pow2_log2 n Hn) as [Hnlo Hnhi].
  destruct (pow2_log2 (Z.pos d) eq_refl) as [Hdlo Hdhi].
  set (a := Z.log2 n) in *. set (b := Z.log2 (Z.pos d)) in *.
  assert (Hxd : ((n # d) * inject_Z (Z.pos d) == inject_Z n)%Q).
  { rewrite (Qmake_Qdiv n d). field. discriminate. }
  pose proof (pow2_pos b) as Hb. pose proof (pow2_pos (e0 - 1)) as Hlo.
  pose proof (pow2_pos (e0 + 1)) as Hhi.
  assert (H1 : (pow2 (a + 1) == pow2 (e0 + 1) * pow2 b)%Q).
  { rewrite <- pow2_add. subst e0. by replace (a - b + 1 + b) with (a + 1) by lia. }
  assert (H2 : (pow2 a == pow2 (e0 - 1) * pow2 (b + 1))%Q).
  { rewrite <- pow2_add. subst e0. by replace (a - b - 1 + (b + 1)) with a by lia. }
  set (X := (n # d)%Q) in *. set (D := inject_Z (Z.pos d)) in *.
  set (N := inject_Z n) in *.
  split.
  - destruct (Qlt_le_dec (pow2 (e0 - 1)) X) as [|Hc]; [done | exfalso].
    assert (X * D <= pow2 (e0 - 1) * D)%Q by nra.
    assert (pow2 (e0 - 1) * D < pow2 (e0 - 1) * pow2 (b + 1))%Q by nra.
    lra.
  - destruct (Qlt_le_dec X (pow2 (e0 + 1))) as [|Hc]; [done | exfalso].
    assert (pow2 (e0 + 1) * D <= X * D)%Q by nra.
    assert (pow2 (e0 + 1) * pow2 b <= pow2 (e0 + 1) * D)%Q by nra.
    lra.
Qed.

Lemma ilog2_spec (x : Q) :
  (0 < x)%Q → (pow2 (ilog2 x) <= x)%Q ∧ (x < pow2 (ilog2 x + 1))%Q.
Proof.
  intros Hx. destruct (ilog2_rough x Hx) as [Hlo Hhi]. unfold ilog2.
  set (e0 := Z.log2 (Qnum x) - Z.log2 (Z.pos (Qden x))) in *.
  destruct (Qle_bool (pow2 e0) x) eqn:Hle.
  - apply Qle_bool_iff in Hle. by split.
  - split; [by apply Qlt_le_weak |].
    replace (e0 - 1 + 1) with e0 by lia.
    apply Qnot_le_lt. intros Hc. apply Qle_bool_iff in Hc. congruence.
Qed.

Lemma ilog2_unique (x : Q) (e : Z) :
  (pow2 e <= x)%Q → (x < pow2 (e + 1))%Q → ilog2 x = e.
Proof.
  intros Hlo Hhi.
  assert (Hx : (0 < x)%Q) by (pose proof (pow2_pos e); lra).
  destruct (ilog2_spec x Hx) as [Hlo' Hhi'].
  assert (e < ilog2 x + 1).
  { apply (Qpower_lt_compat_l_inv 2); [| reflexivity]. fold (pow2 e) (pow2 (ilog2 x + 1)). lra. }
  assert (ilog2 x < e + 1).
  { apply (Qpower_lt_compat_l_inv 2); [| reflexivity]. fold (pow2 (ilog2 x)) (pow2 (e + 1)). lra. }
  lia.
Qed.

Lemma ilog2_mono (x y : Q) : (0 < x)%Q → (x <= y)%Q → ilog2 x ≤ ilog2 y.
Proof.
  intros Hx Hxy.
  destruct (ilog2_spec x Hx) as [Hlo _].
  destruct (ilog2_spec y) as [_ Hhi]; [lra |].
  assert (ilog2 x < ilog2 y + 1); [| lia].
  apply (Qpower_lt_compat_l_inv 2); [| reflexivity].
  fold (pow2 (ilog2 x)) (pow2 (ilog2 y + 1)). lra.
Qed.

Lemma ilog2_proper (x y : Q) : (0 < x)%Q → (x == y)%Q → ilog2 x = ilog2 y.
Proof. intros Hx Hxy. apply Z.le_antisymm; apply ilog2_mono; lra. Qed.

Lemma pow2_cancel k : (pow2 (- k) * pow2 k == 1)%Q.
Proof. rewrite <- pow2_add. by replace (- k + k) with 0 by lia. Qed.

Lemma ulp_exponent_mono x y : (0 < x)%Q → (x <= y)%Q → ulp_exponent x ≤ ulp_exponent y.
Proof. intros Hx Hxy. unfold ulp_exponent. pose proof (ilog2_mono x y Hx Hxy). lia. Qed.

Lemma round_pos_nonneg x : (0 < x)%Q → (0 <= round_pos x)%Q.
Proof.
  intros Hx. unfold round_pos. set (k := ulp_exponent x).
  pose proof (pow2_pos k) as Hk. pose proof (pow2_pos (- k)) as Hk'.
  assert (0 ≤ round_half_even (x * pow2 (- k))).
  { apply round_half_even_ge. change (inject_Z 0) with 0%Q. nra. }
  assert (0 <= inject_Z (round_half_even (x * pow2 (- k))))%Q
    by (change 0%Q with (inject_Z 0); by rewrite <- Zle_Qle).
  nra.
Qed.

(** Rounding stays within the binade. *)
Lemma round_pos_upper x e :
  (0 < x)%Q → (x <= pow2 (e + 1))%Q → ulp_exponent x ≤ e - 52 →
  (round_pos x <= pow2 (e + 1))%Q.
Proof.
  intros Hx Hhi Hk. unfold round_pos. set (k := ulp_exponent x) in *.
  pose proof (pow2_pos k) as Hkpos.
  assert (Hsplit : (pow2 (e + 1) == pow2 (e + 1 - k) * pow2 k)%Q).
  { rewrite <- pow2_add. by replace (e + 1 - k + k) with (e + 1) by lia. }
  assert (Hint : (pow2 (e + 1 - k) == inject_Z (2 ^ (e + 1 - k)))%Q)
    by (apply pow2_inject; lia).
  assert (Hscaled : (x * pow2 (- k) <= inject_Z (2 ^ (e + 1 - k)))%Q).
  { rewrite <- Hint.
    assert (Hs : (pow2 (e + 1 - k) == pow2 (e + 1) * pow2 (- k))%Q).
    { rewrite <- pow2_add. by replace (e + 1 + - k) with (e + 1 - k) by lia. }
    rewrite Hs. pose proof (pow2_pos (- k)). nra. }
  apply round_half_even_le in Hscaled. rewrite Zle_Qle in Hscaled.
  rewrite Hsplit, Hint. nra.
Qed.

Lemma round_pos_lower x e :
  (0 < x)%Q → (pow2 e <= x)%Q → ulp_exponent x ≤ e →
  (pow2 e <= round_pos x)%Q.
Proof.
  intros Hx Hlo Hk. unfold round_pos. set (k := ulp_exponent x) in *.
  pose proof (pow2_pos k) as Hkpos.
  assert (Hsplit : (pow2 e == pow2 (e - k) * pow2 k)%Q).
  { rewrite <- pow2_add. by replace (e - k + k) with e by lia. }
  assert (Hint : (pow2 (e - k) == inject_Z (2 ^ (e - k)))%Q)
    by (apply pow2_inject; lia).
  assert (Hscaled : (inject_Z (2 ^ (e - k)) <= x * pow2 (- k))%Q).
  { rewrite <- Hint.
    assert (Hs : (pow2 (e - k) == pow2 e * pow2 (- k))%Q).
    { rewrite <- pow2_add. by replace (e + - k) with (e - k) by lia. }
    rewrite Hs. pose proof (pow2_pos (- k)). nra. }
  apply round_half_even_ge in Hscaled. rewrite Zle_Qle in Hscaled.
  rewrite Hsplit, Hint. nra.
Qed.

Lemma round_pos_mono x y : (0 < x)%Q → (x <= y)%Q → (round_pos x <= round_pos y)%Q.
Proof.
  intros Hx Hxy.
  assert (Hy : (0 < y)%Q) by lra.
  pose proof (ulp_exponent_mono x y Hx Hxy) as Hk.
  destruct (decide (ulp_exponent x = ulp_exponent y)) as [Heq | Hne].
  - unfold round_pos. rewrite <- Heq. set (k := ulp_exponent x).
    pose proof (pow2_pos k). pose proof (pow2_pos (- k)).
    assert (Hs : (x * pow2 (- k) <= y * pow2 (- k))%Q) by nra.
    apply round_half_even_mono in Hs. rewrite Zle_Qle in Hs. nra.
  - assert (Hlt : ulp_exponent x < ulp_exponent y) by lia.
    set (e := ulp_exponent x + 52).
    destruct (ilog2_spec x Hx) as [_ Hxhi].
    destruct (ilog2_spec y Hy) as [Hylo _].
    assert (Hex : ilog2 x ≤ e) by (unfold e, ulp_exponent; lia).
    assert (Hey : ilog2 y = ulp_exponent y + 52 ∧ e + 1 ≤ ilog2 y).
    { unfold e, ulp_exponent in *. lia. }
    destruct Hey as [Hey Hgap].
    apply Qle_trans with (pow2 (e + 1)).
    + apply round_pos_upper; [done | | unfold e; lia].
      pose proof (pow2_le (ilog2 x + 1) (e + 1) ltac:(lia)). lra.
    + apply Qle_trans with (pow2 (ilog2 y)); [by apply pow2_le |].
      apply round_pos_lower; [done | done | lia].
Qed.

Lemma round_pos_proper x y : (0 < x)%Q → (x == y)%Q → (round_pos x == round_pos y)%Q.
Proof.
  intros Hx Hxy. apply Qle_antisym; apply round_pos_mono; lra.
Qed.

(** A number whose last place is free of fractions rounds to itself. *)
Lemma round_pos_exact x m :
  (x * pow2 (- ulp_exponent x) == inject_Z m)%Q → (round_pos x == x)%Q.
Proof.
  intros Hm. unfold round_pos.
  rewrite (round_half_even_proper _ _ Hm), round_half_even_Z, <- Hm.
  rewrite <- Qmult_assoc, pow2_cancel. ring.
Qed.

Lemma Qcompare_cases (x y : Q) :
  ((x ?= y)%Q = Eq ∧ (x == y)%Q) ∨ ((x ?= y)%Q = Lt ∧ (x < y)%Q)
  ∨ ((x ?= y)%Q = Gt ∧ (y < x)%Q).
Proof.
  destruct (x ?= y)%Q eqn:Hc.
  - left. split; [done |]. by apply Qeq_alt.
  - right; left. split; [done |]. by apply Qlt_alt.
  - right; right. split; [done |]. by apply Qgt_alt.
Qed.

Lemma round_double_pos x :
  (0 < x)%Q →
  round_double x
  = if Qle_bool (pow2 1024) (round_pos x) then Infinity false
    else Finite (Qred (round_pos x)).
Proof.
  intros Hx. unfold round_double.
  destruct (Qcompare_cases x 0) as [[_ H] | [[_ H] | [-> _]]]; [lra | lra | done].
Qed.

Lemma round_double_zero x : (x == 0)%Q → round_double x = Finite 0.
Proof.
  intros Hx. unfold round_double.
  destruct (Qcompare_cases x 0) as [[-> _] | [[_ H] | [_ H]]]; [done | lra | lra].
Qed.

Lemma round_double_nonneg x : (0 <= x)%Q → num_le (Finite 0) (round_double x).
Proof.
  intros Hx. destruct (Qle_lt_or_eq _ _ Hx) as [Hpos | Hz].
  - rewrite round_double_pos by done.
    destruct (Qle_bool (pow2 1024) (round_pos x)); [done |].
    cbn. rewrite Qred_correct. by apply round_pos_nonneg.
  - rewrite round_double_zero by lra. cbn. lra.
Qed.

Lemma round_double_mono x y :
  (0 <= x)%Q → (x <= y)%Q → num_le (round_double x) (round_double y).
Proof.
  intros Hx Hxy. destruct (Qle_lt_or_eq _ _ Hx) as [Hpos | Hz].
  - pose proof (round_pos_mono x y Hpos Hxy) as Hr.
    rewrite !round_double_pos by lra.
    destruct (Qle_bool (pow2 1024) (round_pos x)) eqn:Hox;
      destruct (Qle_bool (pow2 1024) (round_pos y)) eqn:Hoy; cbn.
    + by right.
    + apply Qle_bool_iff in Hox.
      assert (Hc : (pow2 1024 <= round_pos y)%Q) by lra.
      apply Qle_bool_iff in Hc. congruence.
    + done.
    + by rewrite !Qred_correct.
  - rewrite (round_double_zero x) by lra. apply round_double_nonneg. lra.
Qed.

Lemma round_double_proper x y : (x == y)%Q → round_double x = round_double y.
Proof.
  intros Hxy. unfold round_double.
  assert (Hc : (x ?= 0)%Q = (y ?= 0)%Q) by by rewrite Hxy.
  rewrite <- Hc.
  destruct (Qcompare_cases x 0) as [[-> _] | [[-> H] | [-> H]]]; [done | |].
  - assert (Hr : (round_pos (- x) == round_pos (- y))%Q)
      by (apply round_pos_proper; lra).
    assert (Hb : Qle_bool (pow2 1024) (round_pos (- x))
                 = Qle_bool (pow2 1024) (round_pos (- y))) by by rewrite Hr.
    rewrite <- Hb. destruct (Qle_bool _ _); [done |].
    f_equal. apply Qred_complete. by rewrite Hr.
  - assert (Hr : (round_pos x == round_pos y)%Q) by (apply round_pos_proper; lra).
    assert (Hb : Qle_bool (pow2 1024) (round_pos x)
                 = Qle_bool (pow2 1024) (round_pos y)) by by rewrite Hr.
    rewrite <- Hb. destruct (Qle_bool _ _); [done |].
    f_equal. by apply Qred_complete.
Qed.

(** A result between two finite bounds is finite. *)
Lemma num_le_between a z b :
  num_le (Finite a) z → num_le z (Finite b) →
  ∃ q, z = Finite q ∧ (a <= q)%Q ∧ (q <= b)%Q.
Proof.
  destruct z as [q | | s]; cbn; [by eexists | done |].
  intros -> Hc. discriminate Hc.
Qed.

Lemma num_le_trans a b c : num_le a b → num_le b c → num_le a c.
Proof.
  destruct a as [x | | []], b as [y | | []], c as [z | | []]; cbn;
    intros H1 H2; try done; try (by apply Qle_trans with y);
    try (by left); try (by right); try (by destruct H1); by destruct H2.
Qed.

(** ** Exact cases *)

Lemma Qred_inject_Z (n : Z) : Qred (inject_Z n) = inject_Z n.
Proof. apply Qred_identity. cbn. apply Z.gcd_1_r. Qed.

Lemma ilog2_inject_Z (n : Z) : 0 < n → ilog2 (inject_Z n) = Z.log2 n.
Proof. intros Hn. destruct (pow2_log2 n Hn). by apply ilog2_unique. Qed.

(** An integer of at most 53 bits is a double. *)
Lemma round_pos_int (n : Z) :
  1 ≤ n ≤ 2 ^ 53 → (round_pos (inject_Z n) == inject_Z n)%Q.
Proof.
  intros Hn.
  assert (Hk : ulp_exponent (inject_Z n) = Z.log2 n - 52).
  { unfold ulp_exponent. rewrite ilog2_inject_Z by lia.
    pose proof (Z.log2_nonneg n). lia. }
  assert (Hlog : Z.log2 n ≤ 53).
  { change 53 with (Z.log2 (2 ^ 53)). apply Z.log2_le_mono. lia. }
  destruct (decide (Z.log2 n ≤ 52)) as [Hsmall | Hbig].
  - apply (round_pos_exact _ (n * 2 ^ (52 - Z.log2 n))).
    rewrite Hk. replace (- (Z.log2 n - 52)) with (52 - Z.log2 n) by lia.
    rewrite pow2_inject by lia. by rewrite inject_Z_mult.
  - assert (Hlog53 : Z.log2 n = 53) by lia.
    assert (Hn53 : n = 2 ^ 53).
    { destruct (Z.log2_spec n) as [Hlo _]; [lia |]. rewrite Hlog53 in Hlo. lia. }
    apply (round_pos_exact _ (2 ^ 52)). rewrite Hk, Hlog53, Hn53. reflexivity.
Qed.

Lemma parsed_exact (n : Z) : 0 ≤ n ≤ 2 ^ 53 → parsed n = Finite (inject_Z n).
Proof.
  intros Hn. unfold parsed.
  destruct (decide (n = 0)) as [-> | Hne]; [reflexivity |].
  assert (Hpos : (0 < inject_Z n)%Q).
  { change 0%Q with (inject_Z 0). rewrite <- Zlt_Qlt. lia. }
  pose proof (round_pos_int n ltac:(lia)) as Hr.
  rewrite round_double_pos by done.
  assert (Hsmall : Qle_bool (pow2 1024) (round_pos (inject_Z n)) = false).
  { destruct (Qle_bool _ _) eqn:Hle; [| done]. exfalso.
    apply Qle_bool_iff in Hle. rewrite Hr, pow2_inject in Hle by lia.
    rewrite <- Zle_Qle in Hle.
    assert (2 ^ 53 < 2 ^ 1024) by (apply Z.pow_lt_mono_r; lia). lia. }
  rewrite Hsmall. f_equal.
  rewrite (Qred_complete _ _ Hr). apply Qred_inject_Z.
Qed.

Lemma round_double_int (n : Z) :
  0 ≤ n ≤ 2 ^ 53 → round_double (inject_Z n) = Finite (inject_Z n).
Proof. apply parsed_exact. Qed.

(** ** Monotone operations *)

Lemma parsed_mono (a b : Z) : 0 ≤ a → a ≤ b → num_le (parsed a) (parsed b).
Proof.
  intros Ha Hab. apply round_double_mono.
  - change 0%Q with (inject_Z 0). by rewrite <- Zle_Qle.
  - by rewrite <- Zle_Qle.
Qed.

Lemma parsed_nonneg (a : Z) : 0 ≤ a → num_le (Finite 0) (parsed a).
Proof. intros Ha. apply (parsed_mono 0 a); [done | exact Ha]. Qed.

Lemma parsed_ge_1 (a : Z) : 1 ≤ a → num_le (Finite 1) (parsed a).
Proof. intros Ha. apply (parsed_mono 1 a); [done | exact Ha]. Qed.

(** The non-negative doubles: a finite one that is not below zero, or the
    positive infinity. *)
Lemma nonneg_cases (a : number) :
  num_le (Finite 0) a →
  (∃ x, a = Finite x ∧ (0 <= x)%Q) ∨ a = Infinity false.
Proof. destruct a as [x | | s]; cbn; [by left; eexists | done | by intros ->; right]. Qed.

Lemma num_le_infinity (a : number) : num_le (Finite 0) a → num_le a (Infinity false).
Proof. intros [(x & -> & _) | ->]%nonneg_cases; cbn; [done | by right]. Qed.

Lemma js_add_nonneg (a b : number) :
  num_le (Finite 0) a → num_le (Finite 0) b → num_le (Finite 0) (js_add a b).
Proof.
  intros [(x & -> & Hx) | ->]%nonneg_cases [(y & -> & Hy) | ->]%nonneg_cases;
    cbn [js_add Bool.eqb]; try done.
  apply round_double_nonneg. lra.
Qed.

Lemma js_add_mono (a a' b b' : number) :
  num_le (Finite 0) a → num_le (Finite 0) b →
  num_le a a' → num_le b b' →
  num_le (js_add a b) (js_add a' b').
Proof.
  intros Ha Hb Haa Hbb.
  assert (Ha' : num_le (Finite 0) a') by exact (num_le_trans _ _ _ Ha Haa).
  assert (Hb' : num_le (Finite 0) b') by exact (num_le_trans _ _ _ Hb Hbb).
  pose proof (js_add_nonneg a b Ha Hb) as Hsum.
  apply nonneg_cases in Ha' as [(x' & -> & Hx') | ->];
    apply nonneg_cases in Hb' as [(y' & -> & Hy') | ->];
    cbn [js_add Bool.eqb]; try by apply num_le_infinity.
  apply nonneg_cases in Ha as [(x & -> & Hx) | ->]; [| done].
  apply nonneg_cases in Hb as [(y & -> & Hy) | ->]; [| done].
  cbn in Haa, Hbb. cbn [js_add]. apply round_double_mono; lra.
Qed.

(** A sum that is finite has finite terms. *)
Lemma js_add_finite (a b : number) :
  is_finite (js_add a b) = true → is_finite a = true ∧ is_finite b = true.
Proof.
  destruct a as [x | | s], b as [y | | t]; cbn; try done.
  by destruct (Bool.eqb s t).
Qed.

(** ** Counts, sums and percentages *)

Lemma count_or_0_parsed (count : option Z) :
  0 ≤ or_0 count → count_or_0 count = parsed (or_0 count).
Proof.
  destruct count as [n |]; cbn [count_or_0 or_0]; [| reflexivity].
  destruct (Z.eqb_spec n 0) as [-> | Hne]; [reflexivity |]. intros Hn.
  pose proof (parsed_ge_1 n ltac:(lia)) as Hge.
  destruct (parsed n) as [q | | s]; cbn in *; [| done | done].
  destruct (Qeq_bool q 0) eqn:Hz; [| done].
  apply Qeq_bool_iff in Hz. lra.
Qed.

Lemma progress_numerator_parsed (o : Order) :
  (∀ c : box_color, 0 ≤ completed o c) →
  progress_numerator o
  = js_add (js_add (parsed (completed o white)) (parsed (completed o yellow)))
           (parsed (completed o black)).
Proof.
  intros Hc. unfold progress_numerator.
  rewrite !count_or_0_parsed; [done | apply (Hc black) | apply (Hc yellow) | apply (Hc white)].
Qed.

Lemma progress_denominator_parsed (o : Order) :
  (∀ c : box_color, 0 ≤ requested o c) →
  progress_denominator o
  = js_add (js_add (parsed (requested o white)) (parsed (requested o yellow)))
           (parsed (requested o black)).
Proof.
  intros Hc. unfold progress_denominator.
  rewrite !count_or_0_parsed; [done | apply (Hc black) | apply (Hc yellow) | apply (Hc white)].
Qed.

Lemma sum_nonneg (a b c : Z) :
  0 ≤ a → 0 ≤ b → 0 ≤ c →
  num_le (Finite 0) (js_add (js_add (parsed a) (parsed b)) (parsed c)).
Proof. intros. by repeat apply js_add_nonneg; apply parsed_nonneg. Qed.

Lemma sum_mono (a b c a' b' c' : Z) :
  0 ≤ a ≤ a' → 0 ≤ b ≤ b' → 0 ≤ c ≤ c' →
  num_le (js_add (js_add (parsed a) (parsed b)) (parsed c))
         (js_add (js_add (parsed a') (parsed b')) (parsed c')).
Proof.
  intros Ha Hb Hc.
  apply js_add_mono; [| apply parsed_nonneg; lia | | apply parsed_mono; lia].
  - apply js_add_nonneg; apply parsed_nonneg; lia.
  - apply js_add_mono; try apply parsed_nonneg; try apply parsed_mono; lia.
Qed.

Lemma sum_ge_1 (a b c : Z) :
  0 ≤ a → 0 ≤ b → 0 ≤ c → 1 ≤ a + b + c →
  num_le (Finite 1) (js_add (js_add (parsed a) (parsed b)) (parsed c)).
Proof.
  intros Ha Hb Hc Hsum.
  assert (H100 : js_add (js_add (parsed 1) (parsed 0)) (parsed 0) = Finite 1)
    by (vm_compute; reflexivity).
  assert (H010 : js_add (js_add (parsed 0) (parsed 1)) (parsed 0) = Finite 1)
    by (vm_compute; reflexivity).
  assert (H001 : js_add (js_add (parsed 0) (parsed 0)) (parsed 1) = Finite 1)
    by (vm_compute; reflexivity).
  destruct (decide (1 ≤ a)); [rewrite <- H100; apply sum_mono; lia |].
  destruct (decide (1 ≤ b)); [rewrite <- H010; apply sum_mono; lia |].
  rewrite <- H001. apply sum_mono; lia.
Qed.

(** Within 53 bits the sum of three counts is exact. *)
Lemma sum_exact (a b c : Z) :
  0 ≤ a → 0 ≤ b → 0 ≤ c → a + b + c ≤ 2 ^ 53 →
  js_add (js_add (parsed a) (parsed b)) (parsed c) = Finite (inject_Z (a + b + c)).
Proof.
  intros Ha Hb Hc Hsum.
  rewrite !parsed_exact by lia. cbn [js_add].
  rewrite <- inject_Z_plus, round_double_int by lia. cbn [js_add].
  rewrite <- inject_Z_plus. apply round_double_int. lia.
Qed.

Lemma round_double_1 : round_double 1 = Finite 1.
Proof. vm_compute. reflexivity. Qed.

Lemma round_double_100 : round_double 100 = Finite 100.
Proof. vm_compute. reflexivity. Qed.

(** A ratio between zero and one rounds to a double between zero and one,
    and so does its hundredfold between zero and a hundred. *)
Lemma round_double_between (x lo hi : Q) :
  (0 <= lo)%Q → (lo <= x)%Q → (x <= hi)%Q →
  round_double lo = Finite lo → round_double hi = Finite hi →
  ∃ q, round_double x = Finite q ∧ (lo <= q)%Q ∧ (q <= hi)%Q.
Proof.
  intros H0 Hlo Hhi Elo Ehi. apply num_le_between.
  - rewrite <- Elo. by apply round_double_mono.
  - rewrite <- Ehi. apply round_double_mono; lra.
Qed.

Lemma round_double_0 : round_double 0 = Finite 0.
Proof. reflexivity. Qed.

Lemma ratio_in_unit (n d : Q) :
  (0 <= n)%Q → (n <= d)%Q → (0 < d)%Q → (0 <= n / d)%Q ∧ (n / d <= 1)%Q.
Proof.
  intros Hn Hnd Hd. split.
  - apply Qle_shift_div_l; [done | lra].
  - apply Qle_shift_div_r; [done | lra].
Qed.

Lemma percentage_finite (n d : Q) :
  (0 <= n)%Q → (n <= d)%Q → (0 < d)%Q →
  ∃ r q, round_double (n / d) = Finite r ∧ (0 <= r)%Q ∧ (r <= 1)%Q
         ∧ percentage (Finite n) (Finite d) = Finite q
         ∧ round_double (r * 100) = Finite q ∧ (0 <= q)%Q ∧ (q <= 100)%Q.
Proof.
  intros Hn Hnd Hd.
  destruct (ratio_in_unit n d Hn Hnd Hd) as [Hlo Hhi].
  destruct (round_double_between (n / d) 0 1) as (r & Er & Hr0 & Hr1);
    [lra | done | done | apply round_double_0 | apply round_double_1 |].
  destruct (round_double_between (r * 100) 0 100) as (q & Eq & Hq0 & Hq1);
    [lra | lra | lra | apply round_double_0 | apply round_double_100 |].
  exists r, q. split_and!; try done.
  unfold percentage, js_div.
  destruct (Qeq_bool d 0) eqn:Hz; [apply Qeq_bool_iff in Hz; lra |].
  rewrite Er. exact Eq.
Qed.

(** The percentage a finite part makes of a whole that is at least one. *)
Lemma percentage_range (a b : number) :
  num_le (Finite 0) a → num_le a b → num_le (Finite 1) b →
  is_finite a = true →
  is_zero b = false
  ∧ ∃ q, percentage a b = Finite q ∧ (0 <= q)%Q ∧ (q <= 100)%Q.
Proof.
  intros Ha Hab Hb Hfin.
  destruct a as [n | |]; try discriminate Hfin. cbn in Ha.
  destruct b as [d | | s]; cbn in Hab, Hb; [| done |].
  - split.
    + cbn. destruct (Qeq_bool d 0) eqn:Hz; [apply Qeq_bool_iff in Hz; lra | done].
    + destruct (percentage_finite n d) as (r & q & _ & _ & _ & Eq & _ & Hq0 & Hq1);
        [done | done | lra |]. by exists q.
  - subst s. split; [done |]. exists 0%Q. split; [reflexivity | lra].
Qed.

(** More of the same whole is a larger percentage. *)
Lemma percentage_mono (a a' b : number) :
  num_le (Finite 0) a → num_le a a' → num_le a' b → num_le (Finite 1) b →
  is_finite a' = true →
  ∃ q q', percentage a b = Finite q ∧ percentage a' b = Finite q' ∧ (q <= q')%Q.
Proof.
  intros Ha Haa Hab Hb Hfin.
  destruct a' as [n' | |]; try discriminate Hfin.
  destruct a as [n | | s]; cbn in Ha, Haa; [| done | by subst s].
  destruct b as [d | | s]; cbn in Hab, Hb; [| done |].
  - destruct (percentage_finite n d) as (r & q & Er & Hr0 & Hr1 & Eq & Eq2 & _);
      [done | lra | lra |].
    destruct (percentage_finite n' d) as (r' & q' & Er' & Hr0' & Hr1' & Eq' & Eq2' & _);
      [lra | done | lra |].
    exists q, q'. split_and!; [done | done |].
    assert (Hrr : (r <= r')%Q).
    { assert (Hm : num_le (round_double (n / d)) (round_double (n' / d))).
      { apply round_double_mono; [by apply ratio_in_unit; lra |].
        apply Qmult_le_compat_r; [done |].
        apply Qlt_le_weak, Qinv_lt_0_compat. lra. }
      by rewrite Er, Er' in Hm. }
    assert (Hm : num_le (round_double (r * 100)) (round_double (r' * 100)))
      by (apply round_double_mono; lra).
    by rewrite Eq2, Eq2' in Hm.
  - subst s. exists 0%Q, 0%Q. split_and!; [reflexivity | reflexivity | lra].
Qed.

(** ** C4: the progress bar stays within the track *)

(** The width of an order with counts in range that requests something,
    when the sum of the completed counts has not overflowed. *)
Lemma progress_width_in_range (o : Order) :
  counts_in_range o →
  1 ≤ requested o white + requested o yellow + requested o black →
  is_finite (progress_numerator o) = true →
  is_zero (progress_denominator o) = false
  ∧ ∃ q : Q, progress_width o = Finite q ∧ (0 <= q)%Q ∧ (q <= 100)%Q.
Proof.
  intros Hcounts Htotal Hfin.
  pose proof (Hcounts white) as Hw.
  pose proof (Hcounts yellow) as Hy.
  pose proof (Hcounts black) as Hb.
  assert (Hnum := progress_numerator_parsed o ltac:(intros c; apply Hcounts)).
  assert (Hden := progress_denominator_parsed o
                    ltac:(intros c; pose proof (Hcounts c); lia)).
  unfold progress_width. rewrite Hnum, Hden in *.
  apply percentage_range; [| | | done].
  - apply sum_nonneg; lia.
  - apply sum_mono; lia.
  - apply sum_ge_1; lia.
Qed.

(** Counts of at most 53 bits do not overflow. *)
Lemma safe_counts_finite (o : Order) :
  counts_in_range o →
  requested o white + requested o yellow + requested o black ≤ 2 ^ 53 →
  progress_numerator o
  = Finite (inject_Z (completed o white + completed o yellow + completed o black))
  ∧ progress_denominator o
    = Finite (inject_Z (requested o white + requested o yellow + requested o black)).
Proof.
  intros Hcounts Hsafe.
  pose proof (Hcounts white) as Hw.
  pose proof (Hcounts yellow) as Hy.
  pose proof (Hcounts black) as Hb.
  rewrite progress_numerator_parsed by (intros c; apply Hcounts).
  rewrite progress_denominator_parsed by (intros c; pose proof (Hcounts c); lia).
  split; apply sum_exact; lia.
Qed.

(** When the completed counts of an order with counts in range add up to
    [Infinity], so do the requested counts, and the width is NaN: the
    overflow of the sum is the one way the bar leaves the track. *)
Lemma progress_width_overflow (o : Order) :
  counts_in_range o →
  is_finite (progress_numerator o) = false →
  progress_numerator o = Infinity false
  ∧ progress_denominator o = Infinity false
  ∧ progress_width o = NaN.
Proof.
  intros Hcounts Hinf.
  pose proof (Hcounts white) as Hw.
  pose proof (Hcounts yellow) as Hy.
  pose proof (Hcounts black) as Hb.
  assert (Hnum := progress_numerator_parsed o ltac:(intros c; apply Hcounts)).
  assert (Hden := progress_denominator_parsed o
                    ltac:(intros c; pose proof (Hcounts c); lia)).
  assert (Hpos : num_le (Finite 0) (progress_numerator o))
    by (rewrite Hnum; apply sum_nonneg; lia).
  assert (Hle : num_le (progress_numerator o) (progress_denominator o))
    by (rewrite Hnum, Hden; apply sum_mono; lia).
  unfold progress_width.
  destruct (progress_numerator o) as [n | | []]; try done.
  destruct (progress_denominator o) as [d | | []]; try done.
  by destruct Hle.
Qed.

(** C4 as stated fails on an order whose counts are so large that their sum
    overflows: with white and yellow both 10^308 and all of it picked, the
    preconditions hold, both sums are [Infinity], and the width is
    [Infinity / Infinity * 100], that is NaN. *)
Lemma progress_bar_overflows :
  status huge_order = "in_progress"
  ∧ counts_in_range huge_order
  ∧ 1 ≤ requested huge_order white + requested huge_order yellow
        + requested huge_order black
  ∧ progress_numerator huge_order = Infinity false
  ∧ progress_denominator huge_order = Infinity false
  ∧ progress_bar huge_order = Some NaN
  ∧ ¬ width_in_range huge_order.
Proof.
  assert (Hbar : progress_bar huge_order = Some NaN) by (vm_compute; reflexivity).
  split_and!.
  - reflexivity.
  - intros []; vm_compute; split; discriminate.
  - vm_compute. discriminate.
  - vm_compute. reflexivity.
  - vm_compute. reflexivity.
  - exact Hbar.
  - intros (_ & q & Hq & _). rewrite Hbar in Hq. discriminate Hq.
Qed.

(** C4, amended. For an order whose status is [in_progress], whose completed
    counts lie between zero and the requested counts for every colour, which
    requests at least one box in total, and whose completed counts add up to
    a finite double (no overflow to [Infinity]), the divisor of the
    progress-bar width is not zero and the width is a finite number between 0
    and 100. *)
Theorem progress_bar_in_range (o : Order) :
  status o = "in_progress" →
  (∀ c : box_color, 0 ≤ completed o c ≤ requested o c) →
  1 ≤ requested o white + requested o yellow + requested o black →
  is_finite (progress_numerator o) = true →
  is_zero (progress_denominator o) = false
  ∧ ∃ q : Q, progress_bar o = Some (Finite q) ∧ (0 <= q)%Q ∧ (q <= 100)%Q.
Proof.
  intros Hstatus Hcounts Htotal Hfin.
  destruct (progress_width_in_range o Hcounts Htotal Hfin) as (Hden & q & Hq & Hrange).
  split; [exact Hden |]. exists q. split; [| exact Hrange].
  unfold progress_bar. rewrite Hstatus. cbn [String.eqb]. by rewrite Hq.
Qed.

Lemma progress_bar_in_range_witness :
  status sample_order = "in_progress"
  ∧ (∀ c : box_color, 0 ≤ completed sample_order c ≤ requested sample_order c)
  ∧ 1 ≤ requested sample_order white + requested sample_order yellow
        + requested sample_order black
  ∧ is_finite (progress_numerator sample_order) = true
  ∧ is_zero (progress_denominator sample_order) = false
  ∧ ∃ q : Q, progress_bar sample_order = Some (Finite q) ∧ (0 <= q)%Q ∧ (q <= 100)%Q.
Proof.
  assert (Hcounts : ∀ c : box_color,
             0 ≤ completed sample_order c ≤ requested sample_order c)
    by (intros []; vm_compute; split; discriminate).
  assert (Htotal : 1 ≤ requested sample_order white + requested sample_order yellow
                       + requested sample_order black)
    by (vm_compute; discriminate).
  assert (Hfin : is_finite (progress_numerator sample_order) = true)
    by (vm_compute; reflexivity).
  split; [reflexivity | split; [exact Hcounts | split; [exact Htotal |]]].
  split; [exact Hfin |].
  exact (progress_bar_in_range sample_order eq_refl Hcounts Htotal Hfin).
Defined.

(** Without the second precondition the divisor can be zero: the width of a
    zero-requirement order is NaN. *)
Lemma progress_width_zero_order :
  progress_width (mkOrder "e" "in_progress" (Some 0) (Some 0) None None None None)
  = NaN.
Proof. reflexivity. Qed.

(** ** C5: what the count fields store *)

Lemma digit_value_range radix a d :
  digit_value radix a = Some d → 0 ≤ d < radix.
Proof.
  unfold digit_value.
  set (n := Z.of_nat (nat_of_ascii a)).
  destruct ((48 <=? n) && (n <=? 57)) eqn:H09.
  { apply andb_true_iff in H09 as [Hlo%Z.leb_le _].
    destruct (Z.ltb_spec (n - 48) radix); intros [= <-]; lia. }
  destruct ((97 <=? n) && (n <=? 122)) eqn:Haz.
  { apply andb_true_iff in Haz as [Hlo%Z.leb_le _].
    destruct (Z.ltb_spec (n - 87) radix); intros [= <-]; lia. }
  destruct ((65 <=? n) && (n <=? 90)) eqn:HAZ; [| discriminate].
  apply andb_true_iff in HAZ as [Hlo%Z.leb_le _].
  destruct (Z.ltb_spec (n - 55) radix); intros [= <-]; lia.
Qed.

Lemma parse_digits_nonneg radix s acc n :
  0 ≤ radix → 0 ≤ default 0 acc →
  parse_digits radix s acc = Some n → 0 ≤ n.
Proof.
  intros Hradix. revert acc.
  induction s as [| a rest IH]; intros acc Hacc; cbn [parse_digits].
  - intros ->. exact Hacc.
  - destruct (digit_value radix a) as [d|] eqn:Hd.
    + apply IH. apply digit_value_range in Hd. simpl. nia.
    + intros ->. exact Hacc.
Qed.

Lemma take_radix_pos s : 0 < (take_radix s).1.
Proof.
  unfold take_radix.
  repeat match goal with
         | |- context [match ?x with _ => _ end] => destruct x
         end; cbn [fst]; lia.
Qed.

Lemma take_sign_plus s :
  (take_sign s).1 = 1 ∨ ∃ rest, s = String "-" rest.
Proof.
  destruct s as [| a rest]; [left; reflexivity |].
  destruct (ascii_dec a "-") as [-> | Hminus]; [right; eauto |].
  left. unfold take_sign.
  destruct a as [[] [] [] [] [] [] [] []]; try reflexivity. congruence.
Qed.

(** The stored count is negative only when a minus sign was typed. *)
Lemma parseInt_or_0_nonneg s :
  has_minus_sign s = false → 0 ≤ parseInt_or_0 s.
Proof.
  unfold has_minus_sign, parseInt_or_0, parseInt. intros Hsign.
  destruct (take_sign_plus (trim_start s)) as [Hplus | [rest Hminus]].
  - destruct (take_sign (trim_start s)) as [sign s2]. cbn [fst] in Hplus. subst sign.
    pose proof (take_radix_pos s2) as Hradix.
    destruct (take_radix s2) as [radix s3]. cbn [fst] in Hradix.
    destruct (parse_digits radix s3 None) as [n|] eqn:Hn; [| lia].
    apply parse_digits_nonneg in Hn; [| lia | simpl; lia].
    destruct (Z.eqb_spec (1 * n) 0); lia.
  - rewrite Hminus in Hsign. discriminate Hsign.
Qed.

(** NaN never reaches the form: an unreadable string stores zero. *)
Lemma parseInt_or_0_unreadable s : parseInt s = None → parseInt_or_0 s = 0.
Proof. unfold parseInt_or_0. intros ->. reflexivity. Qed.

(** What [onChange] leaves in the form. *)
Lemma run_onChange_field server field_name st cur target_value :
  newOrder (run server (onChange field_name st target_value) cur).1 !! field_name
  = Some (VNum (inject_Z (parseInt_or_0 target_value))).
Proof. cbn. apply lookup_insert_eq. Qed.

(** C5, at the failing input. Typing [-5] into the white-boxes field
    stores the negative count -5 in the form, and [createOrder] then posts it
    as [white_boxes]. *)
Theorem onChange_stores_negative_count :
  parseInt_or_0 "-5" = -5
  ∧ newOrder negative_form_state !! "white_boxes" = Some (VNum (inject_Z (-5)))
  ∧ requests_of (run always_rejected (createOrder negative_form_state)
                     negative_form_state).2
    = [HttpPost (API_URL ++ "/api/orders") (VObj (newOrder negative_form_state))].
Proof. repeat split. Qed.

(** * Properties of the pick coordinator *)

Module CoordinatorFacts.
Import Coordinator.

Lemma returned_matches st c : in_flight c = false → phase_matches st (where_ c).
Proof. unfold in_flight. destruct (where_ c); [discriminate | discriminate | done]. Qed.

(** A robot that is neither loading nor picking has no call in flight. *)
Lemma quiet_robot_no_owner s i :
  invariant s →
  status (robot s) ≠ loading_model → status (robot s) ≠ picking →
  ¬ owns s i.
Proof.
  intros [_ Hmatch] Hl Hp (c & Hc & Hfl).
  specialize (Hmatch i c Hc). unfold in_flight in Hfl.
  destruct (where_ c); simpl in Hmatch; [done | done | discriminate].
Qed.

Lemma invariant_start r orders : invariant (mkSystem r orders []).
Proof.
  split.
  - intros i j (c & Hc & _). simpl in Hc. rewrite lookup_nil in Hc. discriminate.
  - intros i c Hc. simpl in Hc. rewrite lookup_nil in Hc. discriminate.
Qed.

(** A call that returns at once is appended: the robot is as before. *)
Lemma invariant_rejected s orders c' :
  invariant s → in_flight c' = false →
  invariant (mkSystem (robot s) orders (calls s ++ [c'])).
Proof.
  intros [Huniq Hmatch] Hret. split.
  - assert (Hold : ∀ i, owns (mkSystem (robot s) orders (calls s ++ [c'])) i → owns s i).
    { intros i (c & Hc & Hfl). simpl in Hc.
      apply lookup_snoc_Some in Hc as [[_ Hc] | [_ <-]]; [by exists c | congruence]. }
    intros i j Hi Hj. apply Huniq; by apply Hold.
  - intros i c Hc. simpl in *.
    apply lookup_snoc_Some in Hc as [[_ Hc] | [_ <-]]; [by eapply Hmatch |].
    by apply returned_matches.
Qed.

(** A call that gets the idle robot is appended and is the only owner. *)
Lemma invariant_accepted s r' c' :
  invariant s → status (robot s) = idle →
  phase_matches (status r') (where_ c') →
  invariant (mkSystem r' (store s) (calls s ++ [c'])).
Proof.
  intros Hinv Hidle Hnew.
  assert (Hquiet : ∀ i c, calls s !! i = Some c → in_flight c = false).
  { intros i c Hc. destruct (in_flight c) eqn:Hfl; [| done].
    exfalso. apply (quiet_robot_no_owner s i Hinv); [congruence | congruence |].
    by exists c. }
  split.
  - assert (Hlast : ∀ i, owns (mkSystem r' (store s) (calls s ++ [c'])) i
                         → i = length (calls s)).
    { intros i (c & Hc & Hfl). simpl in Hc.
      apply lookup_snoc_Some in Hc as [[_ Hc] | [-> _]]; [| done].
      apply Hquiet in Hc. congruence. }
    intros i j Hi%Hlast Hj%Hlast. congruence.
  - intros i c Hc. simpl in *.
    apply lookup_snoc_Some in Hc as [[_ Hc] | [_ <-]]; [| done].
    apply returned_matches. by eapply Hquiet.
Qed.

(** The call in flight moves on: whatever it becomes, no other call is in
    flight. *)
Lemma invariant_update s i c r' orders c' :
  invariant s → calls s !! i = Some c → in_flight c = true →
  phase_matches (status r') (where_ c') →
  invariant (mkSystem r' orders (<[i := c']> (calls s))).
Proof.
  intros [Huniq Hmatch] Hc Hfl Hnew.
  assert (Hi : owns s i) by by exists c.
  assert (Hother : ∀ j cj, j ≠ i → calls s !! j = Some cj → in_flight cj = false).
  { intros j cj Hne Hcj. destruct (in_flight cj) eqn:Hflj; [| done].
    exfalso. apply Hne. apply Huniq; [by exists cj | done]. }
  split.
  - assert (Honly : ∀ j, owns (mkSystem r' orders (<[i := c']> (calls s))) j → j = i).
    { intros j (cj & Hcj & Hflj). simpl in Hcj.
      destruct (decide (j = i)) as [| Hne]; [done |].
      rewrite list_lookup_insert_ne in Hcj by done.
      apply (Hother j cj Hne) in Hcj. congruence. }
    intros j k Hj%Honly Hk%Honly. congruence.
  - intros j cj Hcj. simpl in *.
    apply list_lookup_insert_Some in Hcj as [(_ & <- & _) | (Hne & Hcj)]; [done |].
    apply returned_matches. by eapply Hother.
Qed.

Lemma invariant_issue s req : invariant s → invariant (issue s req).
Proof.
  intros Hinv. unfold issue.
  destruct (check_order (store s) req) as [failure |].
  { by apply invariant_rejected. }
  unfold requestPick.
  destruct (status (robot s)) eqn:Hst; try by apply invariant_rejected.
  destruct (decide (currentModel (robot s) = Some (color req)));
    by apply invariant_accepted.
Qed.

Lemma invariant_step s l s' : invariant s → step s l = Some s' → invariant s'.
Proof.
  intros Hinv Hstep. destruct l as [req | i ok | i ok | | order wanted | order];
    simpl in Hstep.
  - injection Hstep as <-. by apply invariant_issue.
  - destruct (calls s !! i) as [[req ph] |] eqn:Hc; [| discriminate].
    destruct ph; try discriminate.
    destruct ok; injection Hstep as <-;
      by eapply invariant_update.
  - destruct (calls s !! i) as [[req ph] |] eqn:Hc; [| discriminate].
    destruct ph; try discriminate.
    destruct ok; injection Hstep as <-;
      by eapply invariant_update.
  - destruct (status (robot s)) eqn:Hst; try discriminate.
    injection Hstep as <-. destruct Hinv as [Huniq Hmatch]. split.
    + exact Huniq.
    + intros i c Hc. simpl in *. specialize (Hmatch i c Hc).
      rewrite Hst in Hmatch. by destruct (where_ c).
  - destruct (store s !! order); [discriminate |].
    injection Hstep as <-. exact Hinv.
  - destruct (store s !! order); [| discriminate].
    injection Hstep as <-. exact Hinv.
Qed.

Lemma reachable_invariant s : reachable s → invariant s.
Proof.
  induction 1 as [r orders | s l s' _ IH Hstep].
  - apply invariant_start.
  - by eapply invariant_step.
Qed.

(** *** The later call *)

Lemma owned_robot_busy s i :
  invariant s → owns s i → requestPick (robot s) = fun _ => None.
Proof.
  intros [_ Hmatch] (c & Hc & Hfl). specialize (Hmatch i c Hc).
  unfold in_flight in Hfl. unfold requestPick.
  destruct (where_ c); simpl in Hmatch; [| | discriminate];
    rewrite Hmatch; reflexivity.
Qed.

Lemma issue_while_owned s i req :
  invariant s → owns s i →
  issue s req
  = mkSystem (robot s) (store s)
             (calls s ++ [mkCall req (Returned (rejection (store s) req))]).
Proof.
  intros Hinv Hi. unfold issue, rejection.
  destruct (check_order (store s) req); [reflexivity |].
  rewrite (owned_robot_busy s i Hinv Hi). reflexivity.
Qed.

(** *** The call in flight *)

Lemma issue_appends s req :
  ∃ c' : call, calls (issue s req) = (calls s ++ [c'])%list.
Proof.
  unfold issue. destruct (check_order (store s) req); [by eexists |].
  destruct (requestPick (robot s) (color req)) as [[r ph] |]; by eexists.
Qed.

(** A call that got the robot keeps its place, its request and that
    mark through every step. *)
Lemma step_keeps_got_robot s l s' i c :
  step s l = Some s' → calls s !! i = Some c → got_robot (where_ c) = true →
  ∃ c', calls s' !! i = Some c' ∧ request c' = request c
        ∧ got_robot (where_ c') = true.
Proof.
  intros Hstep Hc Hgot.
  destruct l as [req | j ok | j ok | | order wanted | order]; simpl in Hstep.
  - injection Hstep as <-. destruct (issue_appends s req) as [c' ->].
    exists c. by rewrite lookup_app_l by by eapply lookup_lt_Some.
  - destruct (calls s !! j) as [[req ph] |] eqn:Hj; [| discriminate].
    destruct ph; try discriminate.
    destruct (decide (j = i)) as [-> | Hne].
    + assert (c = mkCall req Loading) as -> by congruence.
      destruct ok; injection Hstep as <-; eexists; simpl;
        (split; [by apply list_lookup_insert_eq; eapply lookup_lt_Some | done]).
    + exists c. destruct ok; injection Hstep as <-; simpl;
        by rewrite list_lookup_insert_ne.
  - destruct (calls s !! j) as [[req ph] |] eqn:Hj; [| discriminate].
    destruct ph; try discriminate.
    destruct (decide (j = i)) as [-> | Hne].
    + assert (c = mkCall req Picking) as -> by congruence.
      destruct ok; injection Hstep as <-; eexists; simpl;
        (split; [by apply list_lookup_insert_eq; eapply lookup_lt_Some | done]).
    + exists c. destruct ok; injection Hstep as <-; simpl;
        by rewrite list_lookup_insert_ne.
  - destruct (status (robot s)); try discriminate.
    injection Hstep as <-. by exists c.
  - destruct (store s !! order); [discriminate |].
    injection Hstep as <-. by exists c.
  - destruct (store s !! order); [| discriminate].
    injection Hstep as <-. by exists c.
Qed.

Lemma moves_keep_got_robot s s' i c :
  rtc moves s s' → calls s !! i = Some c → got_robot (where_ c) = true →
  ∃ c', calls s' !! i = Some c' ∧ request c' = request c
        ∧ got_robot (where_ c') = true.
Proof.
  intros Hmoves. revert c.
  induction Hmoves as [s | s mid s' [l Hstep] _ IH]; intros c Hc Hgot.
  - by exists c.
  - destruct (step_keeps_got_robot s l mid i c Hstep Hc Hgot)
      as (cm & Hcm & Hreq & Hgotm).
    destruct (IH cm Hcm Hgotm) as (c' & Hc' & Hreq' & Hgot').
    exists c'. split; [done | split; [congruence | done]].
Qed.

Lemma in_flight_got_robot c : in_flight c = true → got_robot (where_ c) = true.
Proof. unfold in_flight. by destruct (where_ c). Qed.

Lemma got_robot_outcome c :
  got_robot (where_ c) = true →
  ∀ result, where_ c = Returned result →
  result = Success ∨ result = ModelLoadFailed ∨ result = PickFailed.
Proof. intros Hgot result Hr. rewrite Hr in Hgot. destruct result; naive_solver. Qed.

Lemma one_in_flight_reachable : reachable one_in_flight.
Proof. by apply (reachable_step start (Issue first_pick)); [apply reachable_start |]. Qed.

Lemma one_in_flight_owned : owns one_in_flight 0.
Proof. by eexists. Qed.

(** ** C1: one robot operation at a time *)

(** C1 as stated fails for a later call that names an order the store does
    not have: with a call in flight it is told [OrderNotFound], not [Busy],
    because the order check comes before [requestPick]. *)
Lemma later_call_order_not_found :
  step one_in_flight (Issue second_pick) = Some (issue one_in_flight second_pick)
  ∧ calls (issue one_in_flight second_pick) !! 1%nat
    = Some (mkCall second_pick (Returned OrderNotFound))
  ∧ ¬ later_call_busy.
Proof.
  split; [reflexivity | split; [reflexivity |]].
  intros Hclaim.
  specialize (Hclaim one_in_flight 0%nat second_pick
                     one_in_flight_reachable one_in_flight_owned).
  vm_compute in Hclaim. discriminate Hclaim.
Qed.

(** C1, amended. In every state the coordinator can reach: at most one
    [handlePick] call is in flight (suspended in [loading_model] or
    [picking]); a call issued while another one is in flight returns at
    once and leaves robot and orders as they are, with [Busy] when its order
    check passes and with the order check's failure ([OrderNotFound],
    [OrderExhausted]) otherwise; and the call in flight keeps the robot,
    whatever happens next: when it returns, it returns [Success],
    [ModelLoadFailed] or [PickFailed], never a rejection. *)
Theorem one_pick_in_flight (s : System) :
  reachable s →
  (∀ i j, owns s i → owns s j → i = j)
  ∧ (∀ i req, owns s i →
       step s (Issue req)
       = Some (mkSystem (robot s) (store s)
                        (calls s ++ [mkCall req (Returned (rejection (store s) req))]))
       ∧ (check_order (store s) req = None → rejection (store s) req = Busy)
       ∧ (∀ failure, check_order (store s) req = Some failure →
            rejection (store s) req = failure))
  ∧ (∀ i s' c' result, owns s i → rtc moves s s' →
       calls s' !! i = Some c' → where_ c' = Returned result →
       result = Success ∨ result = ModelLoadFailed ∨ result = PickFailed).
Proof.
  intros Hinv%reachable_invariant. split; [| split].
  - apply Hinv.
  - intros i req Hi. split; [| split].
    + simpl. f_equal. by eapply issue_while_owned.
    + unfold rejection. by intros ->.
    + unfold rejection. by intros failure ->.
  - intros i s' c' result (c & Hc & Hfl) Hmoves Hc' Hresult.
    destruct (moves_keep_got_robot s s' i c Hmoves Hc (in_flight_got_robot c Hfl))
      as (c'' & Hc'' & _ & Hgot).
    assert (c'' = c') as -> by congruence.
    by eapply got_robot_outcome.
Qed.

Lemma one_pick_in_flight_witness :
  reachable one_in_flight
  ∧ (∀ i j, owns one_in_flight i → owns one_in_flight j → i = j)
  ∧ step one_in_flight (Issue first_pick)
    = Some (mkSystem (robot one_in_flight) (store one_in_flight)
                     (calls one_in_flight ++ [mkCall first_pick (Returned Busy)])).
Proof.
  split; [exact one_in_flight_reachable |].
  split.
  - exact (proj1 (one_pick_in_flight one_in_flight one_in_flight_reachable)).
  - exact (proj1 (proj1 (proj2 (one_pick_in_flight one_in_flight
                                   one_in_flight_reachable))
                        0%nat first_pick one_in_flight_owned)).
Defined.
End CoordinatorFacts.

(** * Properties of the client as an event loop *)

Lemma default_newOrder_form : default_newOrder = count_form 1 1 0.
Proof. reflexivity. Qed.

(** Editing one count keeps the form a form. *)
Lemma count_form_edit f n w y b :
  <[field_key f := VNum (inject_Z n)]> (count_form w y b)
  = match f with
    | WhiteBoxes => count_form n y b
    | YellowBoxes => count_form w n b
    | BlackBoxes => count_form w y n
    end.
Proof.
  unfold count_form. destruct f; cbn [field_key].
  - rewrite (insert_insert_ne _ "white_boxes" "black_boxes") by discriminate.
    rewrite (insert_insert_ne _ "white_boxes" "yellow_boxes") by discriminate.
    rewrite insert_insert_eq. reflexivity.
  - rewrite (insert_insert_ne _ "yellow_boxes" "black_boxes") by discriminate.
    rewrite insert_insert_eq. reflexivity.
  - rewrite insert_insert_eq. reflexivity.
Qed.

(** Where a parked request comes from, read off the four handlers that
    await. *)
Lemma from_handler_cases w :
  from_handler w →
  w = fetch_awaiting
  ∨ (∃ color order_id,
       w = mkAwaiting (HttpPost (API_URL ++ "/api/pick")
                                (VObj (pick_body color order_id)))
                      (fun _ => Done)
                      (ConsoleError "Error picking box:" Done))
  ∨ (∃ wh ye bl : Z,
       w = mkAwaiting (HttpPost (API_URL ++ "/api/orders")
                                (VObj (count_form wh ye bl)))
                      (fun _ => Call (setShowCreateOrder false)
                                  (Call (setNewOrder default_newOrder) fetchOrders))
                      (ConsoleError "Error creating order:" Done))
  ∨ (∃ order_id (clear : bool),
       w = mkAwaiting (HttpDelete (API_URL ++ "/api/orders/" ++ order_id))
                      (fun _ => if clear
                                then Call (setSelectedOrderId None) fetchOrders
                                else fetchOrders)
                      (ConsoleError "Error deleting order:" Done)).
Proof.
  intros (st & ev & (wh & ye & bl & Hform) & Hev).
  destruct w as [r ok err]. cbn [sent on_data on_error] in Hev.
  destruct ev; cbn [handler] in Hev; try discriminate Hev.
  - left. unfold fetchOrders in Hev. by injection Hev as <- <- <-.
  - exfalso. unfold onmessage in Hev.
    repeat match type of Hev with
           | context [match ?x with _ => _ end] => destruct x
           end; discriminate Hev.
  - right; left. unfold handlePick in Hev.
    destruct (isPickingInProgress st); [discriminate Hev |].
    injection Hev as <- <- <-. by eexists _, _.
  - right; right; right. unfold deleteOrder in Hev.
    injection Hev as <- <- <-. by exists order_id, (is_selected st order_id).
  - right; right; left. unfold createOrder in Hev. rewrite Hform in Hev.
    injection Hev as <- <- <-. by exists wh, ye, bl.
Qed.

Lemma fetch_from_handler st :
  (∃ w y b : Z, newOrder st = count_form w y b) → from_handler fetch_awaiting.
Proof. intros Hform. by exists st, Mounted. Qed.

Lemma run_sync_fetchOrders cl :
  run_sync fetchOrders cl
  = (mkClient (cells cl) (waiting cl ++ [fetch_awaiting]), [Sent (sent fetch_awaiting)]).
Proof. reflexivity. Qed.

(** A message never parks a request and never touches modal, form or
    selection; what it writes keeps the busy flag in step with the status. *)
Lemma run_sync_onmessage data cl :
  let cl' := (run_sync (onmessage data) cl).1 in
  waiting cl' = waiting cl
  ∧ showCreateOrder (cells cl') = showCreateOrder (cells cl)
  ∧ newOrder (cells cl') = newOrder (cells cl)
  ∧ selectedOrderId (cells cl') = selectedOrderId (cells cl)
  ∧ (isPickingInProgress (cells cl) = busy_status (robotStatus (cells cl)) →
     isPickingInProgress (cells cl') = busy_status (robotStatus (cells cl'))).
Proof.
  destruct data; cbn; repeat split; done.
Qed.

Lemma client_invariant_dispatch cl ev :
  client_invariant cl → client_invariant (dispatch cl ev).1.
Proof.
  intros (Hflag & Hform & Hwait).
  assert (Hfetch : from_handler fetch_awaiting) by by eapply fetch_from_handler.
  unfold client_invariant.
  destruct ev as [| data | color | | order_id | order_id | | f target | | i resp];
    cbn [dispatch handler].
  - rewrite run_sync_fetchOrders. cbn. split_and!; [done | done |].
    apply Forall_app. split; [done | by constructor].
  - destruct (run_sync_onmessage data cl) as (Hw & _ & Hn & _ & Hf).
    split_and!; [by apply Hf | by rewrite Hn | by rewrite Hw].
  - unfold handlePick. destruct (isPickingInProgress (cells cl)) eqn:Hbusy; cbn.
    + split_and!; [by rewrite Hbusy | done | done].
    + split_and!; [by rewrite Hbusy | done |].
      apply Forall_app. split; [done |]. constructor; [| constructor].
      exists (cells cl), (PickClicked color). split; [done |].
      cbn. unfold handlePick. by rewrite Hbusy.
  - done.
  - done.
  - cbn. split_and!; [done | done |].
    apply Forall_app. split; [done |]. constructor; [| constructor].
    by exists (cells cl), (DeleteClicked order_id).
  - done.
  - cbn. split_and!; [done | | done].
    destruct Hform as (w & y & b & ->). rewrite count_form_edit.
    destruct f; by eexists _, _, _.
  - cbn. split_and!; [done | done |].
    apply Forall_app. split; [done |]. constructor; [| constructor].
    by exists (cells cl), CreateClicked.
  - destruct (waiting cl !! i) as [w |] eqn:Hw; [| done].
    pose proof (Forall_delete _ _ i Hwait) as Hrest.
    assert (Hmore : Forall from_handler (delete i (waiting cl) ++ [fetch_awaiting])).
    { apply Forall_app. split; [done | by constructor]. }
    apply (Forall_lookup_1 _ _ _ _ Hwait) in Hw.
    apply from_handler_cases in Hw
      as [-> | [(c & o & ->) | [(wh & ye & bl & ->) | (o & clear & ->)]]];
      destruct resp as [data |]; cbn; try done.
    + split_and!; [done | by exists 1, 1, 0 | done].
    + destruct clear; cbn; done.
Qed.

Lemma client_reachable_invariant cl : client_reachable cl → client_invariant cl.
Proof.
  induction 1 as [| cl ev _ IH].
  - split_and!; [done | by exists 1, 1, 0 | constructor].
  - by apply client_invariant_dispatch.
Qed.

(** ** The busy flag follows the status *)

(** In every state the page can reach, the busy flag is set exactly when the
    status cell holds ['picking'] or ['loading_model']: nothing but
    [onmessage] writes either cell, and it writes both. *)
Theorem busy_flag_tracks_status (cl : Client) :
  client_reachable cl →
  isPickingInProgress (cells cl) = true
  ↔ (robotStatus (cells cl) = VStr "picking"
     ∨ robotStatus (cells cl) = VStr "loading_model").
Proof.
  intros (Hflag & _ & _)%client_reachable_invariant.
  rewrite Hflag. unfold busy_status.
  rewrite orb_true_iff, !strict_eq_str_true. reflexivity.
Qed.

Lemma busy_client_reachable : client_reachable busy_client.
Proof. apply client_step, client_start. Qed.

Lemma busy_flag_tracks_status_witness :
  client_reachable busy_client
  ∧ (isPickingInProgress (cells busy_client) = true
     ↔ (robotStatus (cells busy_client) = VStr "picking"
        ∨ robotStatus (cells busy_client) = VStr "loading_model")).
Proof.
  split; [apply client_step, client_start |].
  apply (busy_flag_tracks_status busy_client). apply client_step, client_start.
Defined.

(** The spinner of a pick button shows only while the buttons are disabled,
    and on one button at most. *)
Theorem spinner_on_a_disabled_button (cl : Client) (color other : string) :
  client_reachable cl →
  spinner_shown (cells cl) color = true →
  isPickingInProgress (cells cl) = true
  ∧ (spinner_shown (cells cl) other = true → other = color).
Proof.
  intros (Hflag & _ & _)%client_reachable_invariant Hspin.
  unfold spinner_shown in *.
  apply andb_true_iff in Hspin as [Hmodel%strict_eq_str_true Hstatus].
  split.
  - rewrite Hflag. unfold busy_status. rewrite Hstatus. apply orb_true_r.
  - intros [Hother%strict_eq_str_true _]%andb_true_iff. congruence.
Qed.

Lemma spinner_on_a_disabled_button_witness :
  client_reachable loading_client
  ∧ spinner_shown (cells loading_client) "white" = true
  ∧ isPickingInProgress (cells loading_client) = true
  ∧ (spinner_shown (cells loading_client) "black" = true → "black" = "white").
Proof.
  assert (Hreach : client_reachable loading_client)
    by apply client_step, client_start.
  split; [exact Hreach | split; [reflexivity |]].
  exact (spinner_on_a_disabled_button loading_client "white" "black" Hreach eq_refl).
Defined.

(** ** What the client sends *)

Lemma onmessage_sends_nothing data cl r :
  Sent r ∉ (run_sync (onmessage data) cl).2.
Proof.
  destruct data; cbn; intros Hin;
    repeat (apply elem_of_cons in Hin as [Hin | Hin]; [discriminate Hin |]);
    by apply elem_of_nil in Hin.
Qed.

Lemma safely_reachable_reachable cl : safely_reachable cl → client_reachable cl.
Proof. induction 1; by constructor. Qed.

Lemma safe_form_edit f n form :
  safe_integer n → safe_form form →
  safe_form (<[field_key f := VNum (inject_Z n)]> form).
Proof.
  intros Hn (w & y & b & Hw & Hy & Hb & ->). rewrite count_form_edit.
  destruct f; [exists n, y, b | exists w, n, b | exists w, y, n]; done.
Qed.

Lemma safe_form_default : safe_form default_newOrder.
Proof. exists 1, 1, 0. split_and!; [done | done | done | reflexivity]. Qed.

(** A safe event leaves a safe form safe. *)
Lemma safe_form_dispatch cl ev :
  client_invariant cl → safe_event ev →
  safe_form (newOrder (cells cl)) → safe_form (newOrder (cells (dispatch cl ev).1)).
Proof.
  intros (_ & _ & Hwait) Hev Hform.
  destruct ev as [| data | color | | order_id | order_id | | f target | | i resp];
    cbn [dispatch handler]; try done.
  - by destruct (run_sync_onmessage data cl) as (_ & _ & -> & _).
  - unfold handlePick. by destruct (isPickingInProgress (cells cl)).
  - cbn. by apply safe_form_edit.
  - destruct (waiting cl !! i) as [w |] eqn:Hw; [| done].
    apply (Forall_lookup_1 _ _ _ _ Hwait) in Hw.
    apply from_handler_cases in Hw
      as [-> | [(c & o & ->) | [(wh & ye & bl & ->) | (o & clear & ->)]]];
      destruct resp as [data |]; cbn; try done.
    + apply safe_form_default.
    + by destruct clear.
Qed.

Lemma safely_reachable_form cl :
  safely_reachable cl → safe_form (newOrder (cells cl)).
Proof.
  induction 1 as [| cl ev Hreach IH Hev].
  - apply safe_form_default.
  - apply safe_form_dispatch; [| done | done].
    by apply client_reachable_invariant, safely_reachable_reachable.
Qed.

(** When every count typed so far is a safe integer, every request that
    leaves the page, at a click or when an earlier request settles, is one
    of four: [GET /api/orders]; [POST /api/orders] with a body of exactly the
    three count fields, each a safe integer; [POST /api/pick] with a
    [{color, order_id}] body; [DELETE /api/orders/id]. *)
Theorem client_sends_known_requests (cl : Client) (ev : ui_event) (r : request) :
  safely_reachable cl → Sent r ∈ (dispatch cl ev).2 → known_request r.
Proof.
  intros Hsafe.
  pose proof (safely_reachable_form cl Hsafe) as Hform.
  apply safely_reachable_reachable, client_reachable_invariant in Hsafe
    as (_ & _ & Hwait).
  assert (Hone : ∀ r0, known_request r0 → Sent r ∈ [Sent r0] → known_request r).
  { intros r0 Hr0 Hin. apply list_elem_of_singleton in Hin. by injection Hin as ->. }
  assert (Hget : known_request (HttpGet (API_URL ++ "/api/orders"))) by by left.
  destruct ev as [| data | color | | order_id | order_id | | f target | | i resp];
    cbn [dispatch handler].
  - by apply Hone.
  - intros Hin. by apply onmessage_sends_nothing in Hin.
  - unfold handlePick. destruct (isPickingInProgress (cells cl)); cbn.
    + by intros ?%elem_of_nil.
    + apply Hone. right; right; left. by eexists _, _.
  - by intros ?%elem_of_nil.
  - by intros ?%elem_of_nil.
  - apply Hone. right; right; right. by eexists.
  - by intros ?%elem_of_nil.
  - by intros ?%elem_of_nil.
  - cbn. apply Hone. right; left. by exists (newOrder (cells cl)).
  - destruct (waiting cl !! i) as [w |] eqn:Hw; [| by intros ?%elem_of_nil].
    apply (Forall_lookup_1 _ _ _ _ Hwait) in Hw.
    apply from_handler_cases in Hw
      as [-> | [(c & o & ->) | [(wh & ye & bl & ->) | (o & clear & ->)]]];
      destruct resp as [data |]; cbn;
      try destruct clear; cbn;
      try (by intros ?%elem_of_nil); try (by apply Hone);
      intros Hin; apply elem_of_cons in Hin as [Hin | Hin];
      try discriminate Hin; by apply elem_of_nil in Hin.
Qed.

Lemma creating_client_reachable : client_reachable creating_client.
Proof. apply client_step, client_start. Qed.

Lemma client_sends_known_requests_witness :
  safely_reachable edited_client
  ∧ Sent (HttpPost (API_URL ++ "/api/orders") (VObj (count_form 1 1 3)))
      ∈ (dispatch edited_client CreateClicked).2
  ∧ known_request (HttpPost (API_URL ++ "/api/orders") (VObj (count_form 1 1 3))).
Proof.
  assert (Hreach : safely_reachable edited_client).
  { apply (safe_step _ (CountChanged BlackBoxes "3")); [apply safe_start |].
    vm_compute. split; discriminate. }
  assert (Hin : Sent (HttpPost (API_URL ++ "/api/orders") (VObj (count_form 1 1 3)))
                  ∈ (dispatch edited_client CreateClicked).2).
  { unfold edited_client. cbn.
    change default_newOrder with (count_form 1 1 0).
    rewrite (count_form_edit BlackBoxes). apply list_elem_of_here. }
  split; [exact Hreach | split; [exact Hin |]].
  exact (client_sends_known_requests edited_client CreateClicked _ Hreach Hin).
Defined.

(** ** Only a pushed message writes the robot cells *)

Lemma quiet_event_keeps_robot_cells cl ev :
  client_invariant cl → is_message ev = false →
  robotStatus (cells (dispatch cl ev).1) = robotStatus (cells cl)
  ∧ currentModel (cells (dispatch cl ev).1) = currentModel (cells cl)
  ∧ isPickingInProgress (cells (dispatch cl ev).1) = isPickingInProgress (cells cl).
Proof.
  intros (_ & _ & Hwait) Hquiet.
  destruct ev as [| data | color | | order_id | order_id | | f target | | i resp];
    try discriminate Hquiet; cbn [dispatch handler]; try done.
  - unfold handlePick.
    destruct (isPickingInProgress (cells cl)) eqn:Hbusy; cbn; by rewrite ?Hbusy.
  - destruct (waiting cl !! i) as [w |] eqn:Hw; [| done].
    apply (Forall_lookup_1 _ _ _ _ Hwait) in Hw.
    apply from_handler_cases in Hw
      as [-> | [(c & o & ->) | [(wh & ye & bl & ->) | (o & clear & ->)]]];
      destruct resp as [data |]; try destruct clear; done.
Qed.

Lemma dispatch_all_reachable cl evs :
  client_reachable cl → client_reachable (dispatch_all cl evs).
Proof.
  revert cl. induction evs as [| ev rest IH]; intros cl Hcl; [done |].
  cbn. by apply IH, client_step.
Qed.

Lemma quiet_events_keep_robot_cells cl evs :
  client_reachable cl → forallb not_a_message evs = true →
  robotStatus (cells (dispatch_all cl evs)) = robotStatus (cells cl)
  ∧ currentModel (cells (dispatch_all cl evs)) = currentModel (cells cl)
  ∧ isPickingInProgress (cells (dispatch_all cl evs))
    = isPickingInProgress (cells cl).
Proof.
  revert cl. induction evs as [| ev rest IH]; intros cl Hcl Hquiet; [done |].
  cbn in Hquiet. apply andb_true_iff in Hquiet as [Hev Hrest].
  apply negb_true_iff in Hev.
  destruct (quiet_event_keeps_robot_cells cl ev
              (client_reachable_invariant cl Hcl) Hev) as (Hs & Hm & Hb).
  destruct (IH (dispatch cl ev).1 (client_step cl ev Hcl) Hrest) as (Hs' & Hm' & Hb').
  cbn [dispatch_all]. split_and!; congruence.
Qed.

(** Whatever happens on the page short of a pushed message (clicks, edits,
    requests going out, responses coming back, in any number and order), the
    status, the loaded model and the busy flag stay as they are: the client
    never anticipates the robot. *)
Theorem robot_cells_wait_for_a_message (cl : Client) (evs : list ui_event) :
  client_reachable cl → forallb not_a_message evs = true →
  robotStatus (cells (dispatch_all cl evs)) = robotStatus (cells cl)
  ∧ currentModel (cells (dispatch_all cl evs)) = currentModel (cells cl)
  ∧ isPickingInProgress (cells (dispatch_all cl evs))
    = isPickingInProgress (cells cl).
Proof. apply quiet_events_keep_robot_cells. Qed.

Lemma robot_cells_wait_for_a_message_witness :
  client_reachable busy_client
  ∧ forallb not_a_message
      [PickClicked "white"; CreateClicked; Settled 0 (Fulfilled VNull)] = true
  ∧ isPickingInProgress
      (cells (dispatch_all busy_client
                [PickClicked "white"; CreateClicked; Settled 0 (Fulfilled VNull)]))
    = isPickingInProgress (cells busy_client).
Proof.
  assert (Hreach : client_reachable busy_client)
    by apply client_step, client_start.
  split; [exact Hreach | split; [reflexivity |]].
  exact (proj2 (proj2 (robot_cells_wait_for_a_message busy_client
           [PickClicked "white"; CreateClicked; Settled 0 (Fulfilled VNull)]
           Hreach eq_refl))).
Defined.

(** So the guard of [handlePick] does not stop a second click: as long as no
    message has arrived since the page was last seen idle, every click on a
    pick button sends its own [POST /api/pick]. *)
Theorem pick_clicks_before_a_message (cl : Client) (evs : list ui_event)
    (color : string) :
  client_reachable cl → isPickingInProgress (cells cl) = false →
  forallb not_a_message evs = true →
  (dispatch (dispatch_all cl evs) (PickClicked color)).2
  = [Sent (HttpPost (API_URL ++ "/api/pick")
             (VObj (pick_body color
                      (selectedOrderId (cells (dispatch_all cl evs))))))].
Proof.
  intros Hcl Hidle Hquiet.
  destruct (quiet_events_keep_robot_cells cl evs Hcl Hquiet) as (_ & _ & Hflag).
  cbn [dispatch handler]. unfold handlePick. rewrite Hflag, Hidle. reflexivity.
Qed.

Lemma pick_clicks_before_a_message_witness :
  client_reachable (mkClient initial_state [])
  ∧ isPickingInProgress (cells (mkClient initial_state [])) = false
  ∧ forallb not_a_message [PickClicked "white"] = true
  ∧ (dispatch (dispatch_all (mkClient initial_state []) [PickClicked "white"])
              (PickClicked "white")).2
    = [Sent (HttpPost (API_URL ++ "/api/pick") (VObj (pick_body "white" None)))].
Proof.
  split; [apply client_start | split; [reflexivity | split; [reflexivity |]]].
  exact (pick_clicks_before_a_message (mkClient initial_state [])
           [PickClicked "white"] "white" client_start eq_refl eq_refl).
Defined.

(** ** What a response does *)

(** A request that fails changes no state cell and sends nothing: it is
    taken off the waiting list and one error is logged. *)
Theorem rejected_request_changes_nothing (cl : Client) (i : nat) (w : awaiting) :
  client_reachable cl → waiting cl !! i = Some w →
  ∃ msg, dispatch cl (Settled i Rejected)
         = (mkClient (cells cl) (delete i (waiting cl)), [Logged msg]).
Proof.
  intros (_ & _ & Hwait)%client_reachable_invariant Hw.
  cbn [dispatch]. rewrite Hw.
  apply (Forall_lookup_1 _ _ _ _ Hwait) in Hw.
  apply from_handler_cases in Hw
    as [-> | [(c & o & ->) | [(wh & ye & bl & ->) | (o & clear & ->)]]];
    by eexists.
Qed.

Lemma rejected_request_changes_nothing_witness :
  client_reachable creating_client
  ∧ (∃ w, waiting creating_client !! 0%nat = Some w)
  ∧ ∃ msg, dispatch creating_client (Settled 0 Rejected)
           = (mkClient (cells creating_client) (delete 0%nat (waiting creating_client)),
              [Logged msg]).
Proof.
  assert (Hreach : client_reachable creating_client)
    by apply client_step, client_start.
  split; [exact Hreach | split; [by eexists |]].
  exact (rejected_request_changes_nothing creating_client 0 _ Hreach eq_refl).
Defined.

(** When a create-order request succeeds, the modal closes, the form goes
    back to its defaults (whatever was typed while the request was out) and
    the order list is fetched again; no other cell is written. *)
Theorem created_order_resets_form (cl : Client) (i : nat) (w : awaiting)
    (body data : value) :
  client_reachable cl → waiting cl !! i = Some w →
  sent w = HttpPost (API_URL ++ "/api/orders") body →
  dispatch cl (Settled i (Fulfilled data))
  = (mkClient (mkApp (robotStatus (cells cl)) (currentModel (cells cl))
                     (orders (cells cl)) false default_newOrder
                     (selectedOrderId (cells cl)) (isPickingInProgress (cells cl)))
              (delete i (waiting cl) ++ [fetch_awaiting]),
     [Sent (HttpGet (API_URL ++ "/api/orders"))]).
Proof.
  intros (_ & _ & Hwait)%client_reachable_invariant Hw Hsent.
  cbn [dispatch]. rewrite Hw.
  apply (Forall_lookup_1 _ _ _ _ Hwait) in Hw.
  apply from_handler_cases in Hw
    as [-> | [(c & o & ->) | [(wh & ye & bl & ->) | (o & clear & ->)]]];
    try discriminate Hsent.
  reflexivity.
Qed.

Lemma created_order_resets_form_witness :
  client_reachable creating_client
  ∧ showCreateOrder (cells (dispatch creating_client (Settled 0 (Fulfilled VNull))).1)
    = false
  ∧ newOrder (cells (dispatch creating_client (Settled 0 (Fulfilled VNull))).1)
    = default_newOrder.
Proof.
  assert (Hreach : client_reachable creating_client)
    by apply client_step, client_start.
  split; [exact Hreach |].
  rewrite (created_order_resets_form creating_client 0 _
             (VObj default_newOrder) VNull Hreach eq_refl eq_refl).
  split; reflexivity.
Defined.

(** When a [GET /api/orders] succeeds, the order list becomes the response
    data as it came, with no default for a missing or [null] body (unlike
    [onmessage]), and no other cell is written.  The list therefore shows the
    response that settled last, not the one that was asked for last. *)
Theorem fetched_orders_stored_as_is (cl : Client) (i : nat) (w : awaiting)
    (data : value) :
  client_reachable cl → waiting cl !! i = Some w →
  sent w = HttpGet (API_URL ++ "/api/orders") →
  dispatch cl (Settled i (Fulfilled data))
  = (mkClient (apply_setter (setOrders data) (cells cl)) (delete i (waiting cl)), []).
Proof.
  intros (_ & _ & Hwait)%client_reachable_invariant Hw Hsent.
  cbn [dispatch]. rewrite Hw.
  apply (Forall_lookup_1 _ _ _ _ Hwait) in Hw.
  apply from_handler_cases in Hw
    as [-> | [(c & o & ->) | [(wh & ye & bl & ->) | (o & clear & ->)]]];
    try discriminate Hsent.
  reflexivity.
Qed.

Lemma fetched_orders_stored_as_is_witness :
  client_reachable mounted_client
  ∧ orders (cells (dispatch mounted_client (Settled 0 (Fulfilled VNull))).1) = VNull.
Proof.
  assert (Hreach : client_reachable mounted_client)
    by apply client_step, client_start.
  split; [exact Hreach |].
  rewrite (fetched_orders_stored_as_is mounted_client 0 _ VNull Hreach eq_refl eq_refl).
  reflexivity.
Defined.

(** ** The selection *)

(** The selected order changes in two ways only: a click on a card selects
    that card's order, and a DELETE that comes back successful may clear the
    selection.  No message, pick, edit, create or failed request touches it,
    so an order that a snapshot no longer lists stays selected. *)
Theorem selection_changes (cl : Client) (ev : ui_event) :
  client_reachable cl →
  let before := selectedOrderId (cells cl) in
  let after := selectedOrderId (cells (dispatch cl ev).1) in
  match ev with
  | CardClicked order_id => after = Some order_id
  | Settled i (Fulfilled _) =>
      after = before
      ∨ (after = None
         ∧ ∃ w order_id, waiting cl !! i = Some w
             ∧ sent w = HttpDelete (API_URL ++ "/api/orders/" ++ order_id))
  | _ => after = before
  end.
Proof.
  intros (_ & _ & Hwait)%client_reachable_invariant.
  destruct ev as [| data | color | | order_id | order_id | | f target | | i resp];
    cbn [dispatch handler]; try done.
  - by destruct (run_sync_onmessage data cl) as (_ & _ & _ & Hsel & _).
  - unfold handlePick. by destruct (isPickingInProgress (cells cl)).
  - destruct (waiting cl !! i) as [w |] eqn:Hw; [| by destruct resp; [left |]].
    pose proof (Forall_lookup_1 _ _ _ _ Hwait Hw) as Hfrom.
    apply from_handler_cases in Hfrom
      as [-> | [(c & o & ->) | [(wh & ye & bl & ->) | (o & clear & ->)]]];
      destruct resp as [data |]; try done; try (by left).
    destruct clear; [right | by left].
    split; [done |]. by eexists _, o.
Qed.

Lemma selection_changes_witness :
  client_reachable busy_client
  ∧ selectedOrderId (cells (dispatch busy_client (CardClicked "3f9a1c2e-77")).1)
    = Some "3f9a1c2e-77".
Proof.
  assert (Hreach : client_reachable busy_client)
    by apply client_step, client_start.
  split; [exact Hreach |].
  exact (selection_changes busy_client (CardClicked "3f9a1c2e-77") Hreach).
Defined.

(** A pick that follows a snapshot names the order that was selected before
    the snapshot, whatever order list the snapshot carried. *)
Theorem pick_after_snapshot_keeps_selection (cl : Client)
    (props : gmap string value) (color : string) :
  busy_status (field props "robot_status") = false →
  (dispatch (dispatch cl (Message (VObj props))).1 (PickClicked color)).2
  = [Sent (HttpPost (API_URL ++ "/api/pick")
             (VObj (pick_body color (selectedOrderId (cells cl)))))].
Proof.
  intros Hidle.
  set (cl' := (dispatch cl (Message (VObj props))).1).
  assert (Hflag : isPickingInProgress (cells cl') = false) by exact Hidle.
  assert (Hsel : selectedOrderId (cells cl') = selectedOrderId (cells cl))
    by reflexivity.
  cbn [dispatch handler]. unfold handlePick. rewrite Hflag, Hsel. reflexivity.
Qed.

Lemma pick_after_snapshot_keeps_selection_witness :
  busy_status (field no_orders_snapshot "robot_status") = false
  ∧ (dispatch (dispatch selected_client (Message (VObj no_orders_snapshot))).1
              (PickClicked "black")).2
    = [Sent (HttpPost (API_URL ++ "/api/pick")
               (VObj (pick_body "black" (Some "3f9a1c2e-77"))))].
Proof.
  split; [reflexivity |].
  exact (pick_after_snapshot_keeps_selection selected_client no_orders_snapshot
           "black" eq_refl).
Defined.

(** ** The create-order form *)

(** When every count typed so far is a safe integer and so is the one
    typed now, what is typed into a count field is what [Create Order]
    posts: the edited field carries [parseInt(text) || 0], the two other
    fields carry what they held, and the body has no further field. *)
Theorem edited_count_is_posted (cl : Client) (f : count_field) (text : string) :
  safely_reachable cl →
  safe_integer (parseInt_or_0 text) →
  ∃ w y b : Z,
    safe_integer w ∧ safe_integer y ∧ safe_integer b
    ∧ newOrder (cells cl) = count_form w y b
    ∧ (dispatch (dispatch cl (CountChanged f text)).1 CreateClicked).2
      = [Sent (HttpPost (API_URL ++ "/api/orders")
                 (VObj (edited_form f (parseInt_or_0 text) w y b)))].
Proof.
  intros (w & y & b & Hw & Hy & Hb & Hform)%safely_reachable_form Htext.
  exists w, y, b. split_and!; [done | done | done | exact Hform |].
  cbn. rewrite Hform, count_form_edit. by destruct f.
Qed.

Lemma edited_count_is_posted_witness :
  safely_reachable (mkClient initial_state [])
  ∧ safe_integer (parseInt_or_0 "3")
  ∧ ∃ w y b : Z,
      safe_integer w ∧ safe_integer y ∧ safe_integer b
      ∧ newOrder initial_state = count_form w y b
      ∧ (dispatch (dispatch (mkClient initial_state [])
                            (CountChanged BlackBoxes "3")).1 CreateClicked).2
        = [Sent (HttpPost (API_URL ++ "/api/orders")
                   (VObj (edited_form BlackBoxes (parseInt_or_0 "3") w y b)))].
Proof.
  assert (Htext : safe_integer (parseInt_or_0 "3"))
    by (vm_compute; split; discriminate).
  split; [apply safe_start | split; [exact Htext |]].
  exact (edited_count_is_posted (mkClient initial_state []) BlackBoxes "3"
           safe_start Htext).
Defined.

(** ** [parseInt] on what a count field shows *)

Lemma digit_value_pretty_char (d : N) :
  (d < 10)%N → digit_value 10 (pretty_N_char d) = Some (Z.of_N d).
Proof.
  intros Hd.
  assert (Hcases : d = 0%N ∨ d = 1%N ∨ d = 2%N ∨ d = 3%N ∨ d = 4%N ∨ d = 5%N
                   ∨ d = 6%N ∨ d = 7%N ∨ d = 8%N ∨ d = 9%N) by lia.
  destruct_or!; subst d; reflexivity.
Qed.

(** Reading back the digits [pretty_N_go] writes in front of [s]. *)
Lemma parse_digits_pretty_go (x : N) (s : string) :
  parse_digits 10 (pretty_N_go x s) None
  = parse_digits 10 s (if decide (x = 0%N) then None else Some (Z.of_N x)).
Proof.
  revert s. induction (N.lt_wf_0 x) as [x _ IH]. intros s.
  destruct (decide (x = 0%N)) as [-> | Hx].
  { by rewrite pretty_N_go_0. }
  rewrite pretty_N_go_step by lia.
  rewrite IH by (apply N.div_lt; lia).
  cbn [parse_digits].
  rewrite digit_value_pretty_char by (apply N.mod_lt; lia).
  f_equal. f_equal.
  pose proof (N.div_mod' x 10) as Hdiv.
  set (q := (x `div` 10)%N) in *. set (m := (x `mod` 10)%N) in *.
  destruct (decide (q = 0%N)) as [Hq | Hq]; simpl; lia.
Qed.

(** The digits of a positive number start with a digit from 1 to 9. *)
Lemma pretty_go_first_digit (x : N) (s : string) :
  (0 < x)%N →
  ∃ c rest, pretty_N_go x s = String c rest
            ∧ 49 ≤ Z.of_nat (nat_of_ascii c) ≤ 57.
Proof.
  revert s. induction (N.lt_wf_0 x) as [x _ IH]. intros s Hx.
  rewrite pretty_N_go_step by done.
  destruct (decide (x `div` 10 = 0)%N) as [Hq | Hq].
  - rewrite Hq, pretty_N_go_0. eexists _, _. split; [done |].
    pose proof (N.div_mod' x 10) as Hdiv. rewrite Hq in Hdiv.
    pose proof (N.mod_lt x 10) as Hlt.
    set (m := (x `mod` 10)%N) in *.
    assert (Hcases : m = 1%N ∨ m = 2%N ∨ m = 3%N ∨ m = 4%N ∨ m = 5%N
                     ∨ m = 6%N ∨ m = 7%N ∨ m = 8%N ∨ m = 9%N) by lia.
    destruct_or!; rewrite Hcases; vm_compute; split; discriminate.
  - apply IH; [apply N.div_lt; lia | by apply N.neq_0_lt_0].
Qed.

(** Such a string has no white space, sign or hexadecimal prefix to strip. *)
Lemma no_prefix_to_strip c rest :
  49 ≤ Z.of_nat (nat_of_ascii c) ≤ 57 →
  trim_start (String c rest) = String c rest
  ∧ take_sign (String c rest) = (1, String c rest)
  ∧ take_radix (String c rest) = (10, String c rest).
Proof.
  intros Hc.
  destruct c as [[] [] [] [] [] [] [] []];
    try (exfalso; vm_compute in Hc; destruct Hc as [Hlo Hhi];
         first [by apply Hlo | by apply Hhi]);
    repeat split; reflexivity.
Qed.

Lemma append_assoc (a b c : string) : (a +:+ b) +:+ c = a +:+ (b +:+ c).
Proof.
  induction a as [| ch a IH]; [done |].
  change (String ch ((a +:+ b) +:+ c) = String ch (a +:+ (b +:+ c))).
  by rewrite IH.
Qed.

Lemma pretty_go_app (x : N) (s : string) :
  pretty_N_go x s = pretty_N_go x "" +:+ s.
Proof.
  revert s. induction (N.lt_wf_0 x) as [x _ IH]. intros s.
  destruct (decide (x = 0%N)) as [-> | Hx].
  { by rewrite !pretty_N_go_0. }
  assert (Hlt : (x `div` 10 < x)%N) by (apply N.div_lt; lia).
  rewrite (pretty_N_go_step x s), (pretty_N_go_step x "") by lia.
  set (d := pretty_N_char (x `mod` 10)).
  rewrite (IH _ Hlt (String d s)), (IH _ Hlt (String d "")).
  by rewrite append_assoc.
Qed.

(** [parseInt] on the digits of a positive number, followed by anything that
    does not start with a digit. *)
Lemma parseInt_positive (p : positive) (tail : string) :
  parse_digits 10 tail (Some (Z.pos p)) = Some (Z.pos p) →
  parseInt (pretty_N_go (N.pos p) "" +:+ tail) = Some (Z.pos p)
  ∧ parseInt ("-" +:+ pretty_N_go (N.pos p) "" +:+ tail) = Some (Z.neg p).
Proof.
  intros Htail. rewrite <- pretty_go_app.
  destruct (pretty_go_first_digit (N.pos p) tail) as (c & rest & Hdigits & Hc);
    [lia |].
  destruct (no_prefix_to_strip c rest Hc) as (Htrim & Hsign & Hradix).
  pose proof (parse_digits_pretty_go (N.pos p) tail) as Hparse.
  rewrite decide_False in Hparse by lia. cbn [Z.of_N] in Hparse.
  rewrite Htail in Hparse.
  split.
  - unfold parseInt. rewrite Hdigits, Htrim, Hsign, Hradix, <- Hdigits, Hparse.
    f_equal.
  - unfold parseInt.
    change ("-" +:+ pretty_N_go (N.pos p) tail)
      with (String "-" (pretty_N_go (N.pos p) tail)).
    change (trim_start (String "-" (pretty_N_go (N.pos p) tail)))
      with (String "-" (pretty_N_go (N.pos p) tail)).
    cbn [take_sign].
    rewrite Hdigits, Hradix, <- Hdigits, Hparse. f_equal.
Qed.

Lemma append_empty_r (s : string) : s +:+ "" = s.
Proof.
  induction s as [| ch s IH]; [done |].
  change (String ch (s +:+ "") = String ch s). by rewrite IH.
Qed.

Lemma Number_toString_pos (p : positive) :
  Number_toString (Z.pos p) = pretty_N_go (N.pos p) "".
Proof. reflexivity. Qed.

Lemma Number_toString_neg (p : positive) :
  Number_toString (Z.neg p) = "-" +:+ pretty_N_go (N.pos p) "".
Proof. reflexivity. Qed.


(** [parseInt(text) || 0] where [text] is what a count field shows for [n],
    followed by anything that starts with a non-digit. *)
Lemma parseInt_or_0_display (n : Z) (tail : string) :
  (∀ k, parse_digits 10 tail (Some k) = Some k) →
  (n = 0 → take_radix (String "0" tail) = (10, String "0" tail)) →
  parseInt_or_0 (Number_toString n +:+ tail) = n.
Proof.
  intros Htail Hzero. unfold parseInt_or_0.
  destruct n as [| p | p].
  - change (Number_toString 0 +:+ tail) with (String "0" tail).
    unfold parseInt.
    change (trim_start (String "0" tail)) with (String "0" tail).
    cbn [take_sign]. rewrite Hzero by done.
    change (parse_digits 10 (String "0" tail) None)
      with (parse_digits 10 tail (Some 0)).
    by rewrite Htail.
  - rewrite Number_toString_pos.
    by rewrite (proj1 (parseInt_positive p tail (Htail _))).
  - rewrite Number_toString_neg, append_assoc.
    by rewrite (proj2 (parseInt_positive p tail (Htail _))).
Qed.

(** A count field is stable: the text React shows for the stored count
    parses back to that count, so an edit that leaves the text as it is
    leaves the form as it is. *)
Theorem displayed_count_parses_back (n : Z) :
  safe_integer n → parseInt_or_0 (Number_toString n) = n.
Proof.
  intros _. rewrite <- (append_empty_r (Number_toString n)).
  by apply parseInt_or_0_display.
Qed.

Lemma displayed_count_parses_back_witness :
  safe_integer (-12) ∧ parseInt_or_0 (Number_toString (-12)) = -12.
Proof.
  assert (Hsafe : safe_integer (-12)) by (unfold safe_integer; lia).
  split; [exact Hsafe |].
  exact (displayed_count_parses_back (-12) Hsafe).
Defined.



(** Without a minus sign in front, the stored count is not negative. *)
Theorem count_without_minus_sign (text : string) :
  has_minus_sign text = false → 0 ≤ parseInt_or_0 text.
Proof. apply parseInt_or_0_nonneg. Qed.

Lemma count_without_minus_sign_witness :
  has_minus_sign "  0x1F boxes" = false ∧ 0 ≤ parseInt_or_0 "  0x1F boxes".
Proof.
  split; [reflexivity |].
  apply (count_without_minus_sign "  0x1F boxes"). reflexivity.
Defined.

(** ** More on the progress bar *)

(** One box picked of three: [1 / 3 * 100] is the double
    33.33333333333333, that is [2345624805922133 / 2^46]. *)
Example width_of_a_third :
  progress_width sample_order = Finite (2345624805922133 # 70368744177664).
Proof. vm_compute. reflexivity. Qed.

(** An integer beyond 2^53 is parsed to the nearest double, a tie to the
    even one. *)
Example parsed_beyond_safe :
  parsed (2 ^ 53 + 1) = Finite (inject_Z (2 ^ 53))
  ∧ parsed (2 ^ 53 + 3) = Finite (inject_Z (2 ^ 53 + 4)).
Proof. split; vm_compute; reflexivity. Qed.

(** Beyond 2^53 the bar can be full while a colour is incomplete: of 2^53
    white boxes and one yellow box, the white ones picked. *)
Example full_bar_incomplete_order :
  progress_width (mkOrder "a" "in_progress" (Some (2 ^ 53)) (Some 1) (Some 0)
                          (Some (2 ^ 53)) (Some 0) (Some 0))
  = Finite 100.
Proof. vm_compute. reflexivity. Qed.

(** A requested total that overflows under a pick count that does not: one
    box over [Infinity] is zero. *)
Example overflowing_total :
  progress_width (mkOrder "b" "in_progress"
                          (Some (10 ^ 308)) (Some (10 ^ 308)) (Some 0)
                          (Some 1) (Some 0) (Some 0))
  = Finite 0.
Proof. vm_compute. reflexivity. Qed.

(** Counts out of range can overflow the product: 10^307 picked of one
    requested. *)
Example overfull_bar :
  progress_width (mkOrder "c" "in_progress" (Some 1) (Some 0) (Some 0)
                          (Some (10 ^ 307)) (Some 0) (Some 0))
  = Infinity false.
Proof. vm_compute. reflexivity. Qed.

Lemma inject_Z_le (a b : Z) : a ≤ b → (inject_Z a <= inject_Z b)%Q.
Proof. by rewrite <- Zle_Qle. Qed.

Lemma percentage_ends (n d : Z) :
  0 ≤ n ≤ d → 1 ≤ d ≤ 2 ^ 53 →
  ∃ q : Q,
    percentage (Finite (inject_Z n)) (Finite (inject_Z d)) = Finite q
    ∧ ((q == 100)%Q ↔ n = d)
    ∧ ((q == 0)%Q ↔ n = 0).
Proof.
  intros Hn Hd.
  assert (Hn0 : (0 <= inject_Z n)%Q) by (apply (inject_Z_le 0 n); lia).
  assert (Hnd : (inject_Z n <= inject_Z d)%Q) by (apply (inject_Z_le n d); lia).
  assert (Hd1 : (1 <= inject_Z d)%Q) by (apply (inject_Z_le 1 d); lia).
  assert (Hd53 : (inject_Z d <= inject_Z (2 ^ 53))%Q)
    by (apply (inject_Z_le d (2 ^ 53)); lia).
  destruct (percentage_finite (inject_Z n) (inject_Z d))
    as (r & q & Er & Hr0 & Hr1 & Eq & Eq2 & Hq0 & Hq1); [done | done | lra |].
  exists q. split; [exact Eq |].
  set (below := (1 - (1 # 2 ^ 53))%Q).
  set (above := (1 # 2 ^ 53)%Q).
  assert (Ebelow : round_double below = Finite below) by (vm_compute; reflexivity).
  assert (Eabove : round_double above = Finite above) by (vm_compute; reflexivity).
  assert (Hbelow : ∃ q', round_double (below * 100) = Finite q' ∧ (q' < 100)%Q)
    by (eexists; split; [vm_compute; reflexivity | reflexivity]).
  assert (Habove : ∃ q', round_double (above * 100) = Finite q' ∧ (0 < q')%Q)
    by (eexists; split; [vm_compute; reflexivity | reflexivity]).
  split; split.
  - intros Hfull. destruct (decide (n = d)) as [| Hne]; [done | exfalso].
    assert (Hlt : (inject_Z n + 1 <= inject_Z d)%Q).
    { assert (H := inject_Z_le (n + 1) d ltac:(lia)).
      rewrite inject_Z_plus in H. exact H. }
    assert (Hratio : (inject_Z n / inject_Z d <= below)%Q).
    { apply Qle_shift_div_r; [lra |]. unfold below.
      change (inject_Z (2 ^ 53)) with (9007199254740992 # 1)%Q in Hd53.
      change (1 # 2 ^ 53)%Q with (1 # 9007199254740992)%Q. lra. }
    assert (Hr : (r <= below)%Q).
    { assert (Hm := round_double_mono _ _
                      (proj1 (ratio_in_unit _ _ Hn0 Hnd ltac:(lra))) Hratio).
      by rewrite Er, Ebelow in Hm. }
    destruct Hbelow as (q' & Eq' & Hq').
    assert (Hm : num_le (round_double (r * 100)) (round_double (below * 100)))
      by (apply round_double_mono; lra).
    rewrite Eq2, Eq' in Hm. cbn in Hm. lra.
  - intros ->.
    assert (Hone : (inject_Z d / inject_Z d == 1)%Q) by (field; lra).
    rewrite (round_double_proper _ _ Hone), round_double_1 in Er.
    injection Er as <-.
    rewrite (round_double_proper (1 * 100) 100 ltac:(lra)), round_double_100 in Eq2.
    by injection Eq2 as <-.
  - intros Hempty. destruct (decide (n = 0)) as [| Hne]; [done | exfalso].
    assert (Hge : (1 <= inject_Z n)%Q) by (apply (inject_Z_le 1 n); lia).
    assert (Hratio : (above <= inject_Z n / inject_Z d)%Q).
    { apply Qle_shift_div_l; [lra |]. unfold above.
      change (inject_Z (2 ^ 53)) with (9007199254740992 # 1)%Q in Hd53.
      change (1 # 2 ^ 53)%Q with (1 # 9007199254740992)%Q. lra. }
    assert (Hr : (above <= r)%Q).
    { assert (Hm := round_double_mono above _ ltac:(done) Hratio).
      by rewrite Er, Eabove in Hm. }
    destruct Habove as (q' & Eq' & Hq').
    assert (Hm : num_le (round_double (above * 100)) (round_double (r * 100))).
    { apply round_double_mono; [done |]. lra. }
    rewrite Eq2, Eq' in Hm. cbn in Hm. lra.
  - intros ->.
    assert (Hzero : (inject_Z 0 / inject_Z d == 0)%Q) by (field; lra).
    rewrite (round_double_proper _ _ Hzero), round_double_0 in Er.
    injection Er as <-.
    rewrite (round_double_proper (0 * 100) 0 ltac:(lra)), round_double_0 in Eq2.
    by injection Eq2 as <-.
Qed.

(** With the counts in range, something requested and the requested
    total within 53 bits, the bar is full exactly when every colour is
    complete, and empty exactly when nothing has been picked. *)
Theorem progress_bar_full_and_empty (o : Order) :
  (∀ c : box_color, 0 ≤ completed o c ≤ requested o c) →
  1 ≤ requested o white + requested o yellow + requested o black ≤ 2 ^ 53 →
  ∃ q : Q,
    progress_width o = Finite q
    ∧ ((q == 100)%Q ↔ ∀ c : box_color, completed o c = requested o c)
    ∧ ((q == 0)%Q ↔ ∀ c : box_color, completed o c = 0).
Proof.
  intros Hcounts Htotal.
  pose proof (Hcounts white) as Hw.
  pose proof (Hcounts yellow) as Hy.
  pose proof (Hcounts black) as Hb.
  destruct (safe_counts_finite o Hcounts ltac:(lia)) as [Enum Eden].
  destruct (percentage_ends
              (completed o white + completed o yellow + completed o black)
              (requested o white + requested o yellow + requested o black))
    as (q & Eq & Hfull & Hempty); [lia | lia |].
  exists q. unfold progress_width. rewrite Enum, Eden.
  split; [exact Eq |]. rewrite Hfull, Hempty. split; split.
  - intros Hsum c. pose proof (Hcounts c). destruct c; lia.
  - intros Hall. rewrite !Hall. done.
  - intros Hsum c. pose proof (Hcounts c). destruct c; lia.
  - intros Hall. rewrite !Hall. done.
Qed.

Lemma progress_bar_full_and_empty_witness :
  (∀ c : box_color, 0 ≤ completed sample_order c ≤ requested sample_order c)
  ∧ 1 ≤ requested sample_order white + requested sample_order yellow
        + requested sample_order black ≤ 2 ^ 53
  ∧ ∃ q : Q,
      progress_width sample_order = Finite q
      ∧ ((q == 100)%Q ↔ ∀ c : box_color,
                          completed sample_order c = requested sample_order c)
      ∧ ((q == 0)%Q ↔ ∀ c : box_color, completed sample_order c = 0).
Proof.
  assert (Hcounts : ∀ c : box_color,
             0 ≤ completed sample_order c ≤ requested sample_order c)
    by (intros []; vm_compute; split; discriminate).
  assert (Htotal : 1 ≤ requested sample_order white + requested sample_order yellow
                       + requested sample_order black ≤ 2 ^ 53)
    by (vm_compute; split; discriminate).
  split; [exact Hcounts | split; [exact Htotal |]].
  exact (progress_bar_full_and_empty sample_order Hcounts Htotal).
Defined.

(** Between two views of an order that requests the same boxes, with
    the counts in range, something requested and no overflow in the sum of
    the later picks, the view with more picks recorded has the wider bar: a
    pick never moves the bar back. *)
Theorem progress_bar_grows (o o' : Order) :
  (∀ c : box_color, requested o' c = requested o c) →
  (∀ c : box_color, 0 ≤ completed o c ≤ completed o' c) →
  (∀ c : box_color, completed o' c ≤ requested o' c) →
  1 ≤ requested o white + requested o yellow + requested o black →
  is_finite (progress_numerator o') = true →
  ∃ q q' : Q,
    progress_width o = Finite q ∧ progress_width o' = Finite q' ∧ (q <= q')%Q.
Proof.
  intros Hreq Hdone Hdone' Htotal Hfin.
  pose proof (Hreq white) as Hw. pose proof (Hreq yellow) as Hy.
  pose proof (Hreq black) as Hb.
  pose proof (Hdone white) as Hw'. pose proof (Hdone yellow) as Hy'.
  pose proof (Hdone black) as Hb'.
  pose proof (Hdone' white) as Hw''. pose proof (Hdone' yellow) as Hy''.
  pose proof (Hdone' black) as Hb''.
  assert (Hnum := progress_numerator_parsed o ltac:(intros c; apply Hdone)).
  assert (Hnum' := progress_numerator_parsed o'
                     ltac:(intros c; pose proof (Hdone c); lia)).
  assert (Hden := progress_denominator_parsed o
                    ltac:(intros c; pose proof (Hdone c); pose proof (Hdone' c);
                          pose proof (Hreq c); lia)).
  assert (Hden' := progress_denominator_parsed o'
                     ltac:(intros c; pose proof (Hdone c); pose proof (Hdone' c); lia)).
  rewrite Hw, Hy, Hb in Hden'.
  unfold progress_width. rewrite Hnum, Hden, Hden'. rewrite Hnum' in *.
  apply percentage_mono; [| | | | done].
  - apply sum_nonneg; lia.
  - apply sum_mono; lia.
  - apply sum_mono; lia.
  - apply sum_ge_1; lia.
Qed.

Lemma progress_bar_grows_witness :
  (∀ c : box_color, requested sample_order_later c = requested sample_order c)
  ∧ (∀ c : box_color, 0 ≤ completed sample_order c ≤ completed sample_order_later c)
  ∧ (∀ c : box_color, completed sample_order_later c ≤ requested sample_order_later c)
  ∧ 1 ≤ requested sample_order white + requested sample_order yellow
        + requested sample_order black
  ∧ is_finite (progress_numerator sample_order_later) = true
  ∧ ∃ q q' : Q,
      progress_width sample_order = Finite q
      ∧ progress_width sample_order_later = Finite q' ∧ (q <= q')%Q.
Proof.
  assert (Hreq : ∀ c : box_color,
             requested sample_order_later c = requested sample_order c)
    by (intros []; reflexivity).
  assert (Hdone : ∀ c : box_color,
             0 ≤ completed sample_order c ≤ completed sample_order_later c)
    by (intros []; vm_compute; split; discriminate).
  assert (Hdone' : ∀ c : box_color,
             completed sample_order_later c ≤ requested sample_order_later c)
    by (intros []; vm_compute; discriminate).
  assert (Htotal : 1 ≤ requested sample_order white + requested sample_order yellow
                       + requested sample_order black)
    by (vm_compute; discriminate).
  assert (Hfin : is_finite (progress_numerator sample_order_later) = true)
    by (vm_compute; reflexivity).
  split; [exact Hreq | split; [exact Hdone | split; [exact Hdone' |]]].
  split; [exact Htotal | split; [exact Hfin |]].
  exact (progress_bar_grows sample_order sample_order_later
           Hreq Hdone Hdone' Htotal Hfin).
Defined.

(** With the counts in range and no overflow in the sum of the picks,
    the bar's width fails to be a number exactly when the order requests
    nothing (zero over zero is NaN), and it is never an infinity. *)
Theorem progress_width_not_a_number (o : Order) :
  (∀ c : box_color, 0 ≤ completed o c ≤ requested o c) →
  is_finite (progress_numerator o) = true →
  ((∀ c : box_color, requested o c = 0) ↔ progress_width o = NaN)
  ∧ ∀ negative : bool, progress_width o ≠ Infinity negative.
Proof.
  intros Hcounts Hfin.
  pose proof (Hcounts white) as Hw.
  pose proof (Hcounts yellow) as Hy.
  pose proof (Hcounts black) as Hb.
  destruct (decide (1 ≤ requested o white + requested o yellow + requested o black))
    as [Htotal | Hnone].
  - destruct (progress_width_in_range o Hcounts Htotal Hfin) as (_ & q & Eq & _).
    rewrite Eq. split; [split |]; [| done | done].
    intros Hall. rewrite !Hall in Htotal. lia.
  - assert (Hall : ∀ c, requested o c = 0) by (intros []; lia).
    assert (Hall' : ∀ c, completed o c = 0)
      by (intros c; pose proof (Hcounts c); rewrite Hall in *; lia).
    assert (Enan : progress_width o = NaN).
    { unfold progress_width.
      rewrite progress_numerator_parsed by (intros c; apply Hcounts).
      rewrite progress_denominator_parsed
        by (intros c; pose proof (Hcounts c); lia).
      rewrite !Hall, !Hall'. reflexivity. }
    rewrite Enan. done.
Qed.

Lemma progress_width_not_a_number_witness :
  (∀ c : box_color, 0 ≤ completed empty_order c ≤ requested empty_order c)
  ∧ is_finite (progress_numerator empty_order) = true
  ∧ ((∀ c : box_color, requested empty_order c = 0)
     ↔ progress_width empty_order = NaN)
  ∧ ∀ negative : bool, progress_width empty_order ≠ Infinity negative.
Proof.
  assert (Hcounts : ∀ c : box_color,
             0 ≤ completed empty_order c ≤ requested empty_order c)
    by (intros []; vm_compute; split; discriminate).
  assert (Hfin : is_finite (progress_numerator empty_order) = true)
    by (vm_compute; reflexivity).
  split; [exact Hcounts | split; [exact Hfin |]].
  exact (progress_width_not_a_number empty_order Hcounts Hfin).
Defined.

(** The bar is drawn on the cards with the blue badge and on no others. *)
Theorem progress_bar_goes_with_blue_badge (o : Order) :
  is_Some (progress_bar o) ↔ status_badge o = "bg-blue-500/20 text-blue-400".
Proof.
  unfold progress_bar, status_badge.
  destruct (String.eqb_spec (status o) "in_progress") as [-> | Hne].
  - split; [done | by eexists].
  - destruct (String.eqb (status o) "completed");
      split; try discriminate; by intros [? ?].
Qed.

(** ** Status colours and icons tell the statuses apart *)





(** ** Responses the client does not act on *)

(** The response to a pick is dropped: whatever the server answers to a
    successful [POST /api/pick], no state cell changes and nothing is sent or
    logged.  The outcome of a pick reaches the page through pushed messages
    only. *)
Theorem pick_response_is_dropped (cl : Client) (i : nat) (w : awaiting)
    (body data : value) :
  client_reachable cl → waiting cl !! i = Some w →
  sent w = HttpPost (API_URL ++ "/api/pick") body →
  dispatch cl (Settled i (Fulfilled data))
  = (mkClient (cells cl) (delete i (waiting cl)), []).
Proof.
  intros (_ & _ & Hwait)%client_reachable_invariant Hw Hsent.
  cbn [dispatch]. rewrite Hw.
  apply (Forall_lookup_1 _ _ _ _ Hwait) in Hw.
  apply from_handler_cases in Hw
    as [-> | [(c & o & ->) | [(wh & ye & bl & ->) | (o & clear & ->)]]];
    try discriminate Hsent.
  reflexivity.
Qed.

Lemma pick_response_is_dropped_witness :
  client_reachable picking_client
  ∧ dispatch picking_client (Settled 0 (Fulfilled (VStr "ok")))
    = (mkClient (cells picking_client) (delete 0%nat (waiting picking_client)), []).
Proof.
  assert (Hreach : client_reachable picking_client)
    by apply client_step, client_start.
  split; [exact Hreach |].
  exact (pick_response_is_dropped picking_client 0 _
           (VObj (pick_body "white" None)) (VStr "ok") Hreach eq_refl eq_refl).
Defined.

(** A successful DELETE does not take the order off the list by itself: the
    list and every other cell but the selection stay as they are, and a
    [GET /api/orders] goes out to bring the new list. *)
Theorem deleted_order_waits_for_refetch (cl : Client) (i : nat) (w : awaiting)
    (url : string) (data : value) :
  client_reachable cl → waiting cl !! i = Some w → sent w = HttpDelete url →
  ∃ selection,
    dispatch cl (Settled i (Fulfilled data))
    = (mkClient (mkApp (robotStatus (cells cl)) (currentModel (cells cl))
                       (orders (cells cl)) (showCreateOrder (cells cl))
                       (newOrder (cells cl)) selection
                       (isPickingInProgress (cells cl)))
                (delete i (waiting cl) ++ [fetch_awaiting]),
       [Sent (HttpGet (API_URL ++ "/api/orders"))])
    ∧ (selection = selectedOrderId (cells cl) ∨ selection = None).
Proof.
  intros (_ & _ & Hwait)%client_reachable_invariant Hw Hsent.
  cbn [dispatch]. rewrite Hw.
  apply (Forall_lookup_1 _ _ _ _ Hwait) in Hw.
  apply from_handler_cases in Hw
    as [-> | [(c & o & ->) | [(wh & ye & bl & ->) | (o & clear & ->)]]];
    try discriminate Hsent.
  destruct clear; cbn.
  - exists None. split; [reflexivity | by right].
  - exists (selectedOrderId (cells cl)). split; [| by left].
    by destruct (cells cl).
Qed.

Lemma deleting_client_reachable : client_reachable deleting_client.
Proof. apply client_step, client_step, client_start. Qed.

Lemma deleted_order_waits_for_refetch_witness :
  client_reachable deleting_client
  ∧ orders (cells (dispatch deleting_client (Settled 0 (Fulfilled VNull))).1)
    = orders (cells deleting_client)
  ∧ (dispatch deleting_client (Settled 0 (Fulfilled VNull))).2
    = [Sent (HttpGet (API_URL ++ "/api/orders"))].
Proof.
  assert (Hreach : client_reachable deleting_client)
    by apply client_step, client_step, client_start.
  split; [exact Hreach |].
  destruct (deleted_order_waits_for_refetch deleting_client 0 _
              (API_URL ++ "/api/orders/" ++ "3f9a1c2e-77") VNull
              Hreach eq_refl eq_refl) as (selection & -> & _).
  split; reflexivity.
Defined.

(** ** Messages that are not objects *)

(** A message that parses to a boolean, a number, a string or an array has
    none of the three fields: the handler does not throw, it blanks the
    snapshot cells (status and model [undefined], an empty order list, the
    busy flag off) and leaves modal, form and selection alone. *)
Theorem non_object_message_blanks_snapshot (cl : Client) (data : value) :
  is_primitive_or_array data = true →
  dispatch cl (Message data)
  = (mkClient (mkApp VUndefined VUndefined (VArr [])
                     (showCreateOrder (cells cl)) (newOrder (cells cl))
                     (selectedOrderId (cells cl)) false)
              (waiting cl),
     []).
Proof. intros Hdata. destruct data; try discriminate Hdata; reflexivity. Qed.

Lemma non_object_message_blanks_snapshot_witness :
  is_primitive_or_array (VArr [VStr "picking"]) = true
  ∧ isPickingInProgress
      (cells (dispatch busy_client (Message (VArr [VStr "picking"]))).1) = false.
Proof.
  split; [reflexivity |].
  rewrite (non_object_message_blanks_snapshot busy_client (VArr [VStr "picking"])
             eq_refl).
  reflexivity.
Defined.

(** ** Edits of the form *)

Lemma field_key_inj (f g : count_field) : field_key f = field_key g → f = g.
Proof. destruct f, g; done. Qed.

(** Edits of different count fields do not interfere, in either order, and
    of two edits of the same field the later one stands. *)
Theorem count_edits_compose (cl : Client) (f g : count_field) (s t : string) :
  dispatch_all cl [CountChanged f s; CountChanged g t]
  = if decide (f = g) then (dispatch cl (CountChanged g t)).1
    else dispatch_all cl [CountChanged g t; CountChanged f s].
Proof.
  cbn. destruct (decide (f = g)) as [-> | Hne]; do 2 f_equal.
  - apply insert_insert_eq.
  - apply insert_insert_ne. intros Heq. by apply Hne, field_key_inj.
Qed.
